(** * obsidian-completr: the suggestion popup controller ([src/popup.ts])

    A shallow embedding of the [SuggestionPopup] class: its fields are a
    record, its methods are computations in a state-and-exception monad over
    that record, and every call that leaves the class (the editor, the key
    scope, the snippet manager, the regular-expression engine, the console,
    the suggestion providers) is both performed on the modelled host state
    and appended to a chronological event log. *)

From Stdlib Require Import ZArith NArith String Ascii Lia.
From stdpp Require Import base tactics option numbers list.

Open Scope Z_scope.

(** ** JavaScript strings

    A JavaScript string is a sequence of UTF-16 code units: [length] counts
    code units and [contains] looks for a run of code units. *)

Definition JSString : Type := list N.

Definition js (s : string) : JSString :=
  List.map N_of_ascii (list_ascii_of_string s).

Arguments js : simpl never.

Fixpoint startsWith (needle s : JSString) : bool :=
  match needle, s with
  | [], _ => true
  | _ :: _, [] => false
  | n :: needle', c :: s' => N.eqb n c && startsWith needle' s'
  end.

(** [String.prototype.contains] (the host's alias of [includes]). *)
Fixpoint contains (s needle : JSString) : bool :=
  startsWith needle s ||
  match s with
  | [] => false
  | _ :: s' => contains s' needle
  end.

(** ** Data model *)

Record EditorPosition := { line : Z; ch : Z }.

Definition with_ch (p : EditorPosition) (c : Z) : EditorPosition :=
  {| line := line p; ch := c |}.

(** Modelled from the spec: the [Suggestion] type of [provider/provider.ts]
    (section 3 and section 9: plain text, or a record with [displayName],
    [replacement] and an optional [overrideStart]). *)
Inductive Suggestion :=
| Plain (text : JSString)
| Rich (displayName replacement : JSString) (overrideStart : option EditorPosition).

(** Modelled from the spec: the accessors of [provider/provider.ts], which
    pattern-match the variant (section 9). *)
Definition getSuggestionReplacement (s : Suggestion) : JSString :=
  match s with
  | Plain text => text
  | Rich _ replacement _ => replacement
  end.

Definition getSuggestionDisplayName (s : Suggestion) : JSString :=
  match s with
  | Plain text => text
  | Rich displayName _ _ => displayName
  end.

(** [typeof s !== "string" && s.overrideStart]: a position object is truthy,
    an absent field is not. *)
Definition overrideStartOf (s : Suggestion) : option EditorPosition :=
  match s with
  | Plain _ => None
  | Rich _ _ o => o
  end.

(** The fields of [CompletrSettings] that [popup.ts] reads. *)
Module Settings.
Record t := {
  insertionKey : JSString;
  characterRegex : JSString;
  maxLookBackDistance : Z
}.
End Settings.

Definition CompletrSettings : Type := Settings.t.

Inductive JSError :=
| TypeError
| SyntaxError (pattern : JSString)
| Thrown (payload : JSString).

(** What a call of a provider's [getSuggestions] can do: return an array,
    throw, or return something that the array spread cannot iterate. *)
Inductive ProviderResult :=
| Returned (candidates : list Suggestion)
| Threw (e : JSError)
| ReturnedNonIterable.

(** The host's opaque types. *)
Class HostTypes := { Editor : Type; TFile : Type }.

(** [EditorSuggestContext] without its [editor] reference: the one editor
    lives in the popup's world. *)
Record EditorSuggestContext `{HostTypes} := {
  ctx_file : TFile;
  ctx_start : EditorPosition;
  ctx_end : EditorPosition;
  ctx_query : JSString
}.

(** The object [{...context, separatorChar: this.separatorChar}] a provider
    receives; [pc_editor] is the editor as it is at the time of the call. *)
Record ProviderContext `{HostTypes} := {
  pc_editor : Editor;
  pc_file : TFile;
  pc_start : EditorPosition;
  pc_end : EditorPosition;
  pc_query : JSString;
  pc_separatorChar : option JSString
}.

Record SuggestionProvider `{HostTypes} := {
  blocksAllOtherProviders : bool;
  provider_getSuggestions : ProviderContext -> CompletrSettings -> ProviderResult
}.

Record EditorSuggestTriggerInfo := {
  ti_start : EditorPosition;
  ti_end : EditorPosition;
  ti_query : JSString
}.

Record RegExp := { re_id : nat; re_source : JSString; re_flags : JSString }.

(** What a key handler of the popup's scope does when its key is pressed. *)
Inductive Listener :=
| HostDefault
| UseSelectedItem.

(** A handler object of [scope.keys]; [h_id] is its identity. *)
Record KeymapEventHandler := {
  h_id : nat;
  h_modifiers : list JSString;
  h_key : JSString;
  h_func : Listener
}.

(** Everything [popup.ts] imports and calls but does not define. *)
Class Host `{HostTypes} := {
  editor_getRange : Editor -> EditorPosition -> EditorPosition -> JSString;
  editor_replaceRange : Editor -> JSString -> EditorPosition -> EditorPosition -> Editor;
  editor_setCursor : Editor -> EditorPosition -> Editor;
  snippetManager_handleSnippet : JSString -> EditorPosition -> Editor -> Editor;
  regexp_valid : JSString -> JSString -> bool;
  regexp_test : RegExp -> JSString -> bool;
  PROVIDERS : list SuggestionProvider
}.

(** The calls that leave the class, in the order they happen. *)
Inductive Event :=
| ProviderCalled (index : nat)
| RegExpCompiled (source flags : JSString)
| ReplaceRange (text : JSString) (from to : EditorPosition)
| SetCursor (pos : EditorPosition)
| HandleSnippet (text : JSString) (start : EditorPosition)
| ConsoleLog (args : list JSString)
| Close
| ScopeRegister (handler : KeymapEventHandler)
| ScopeUnregister (handler : option KeymapEventHandler).

(** ** The popup and its host state *)

Record World `{HostTypes} := {
  (* fields of SuggestionPopup; [None] is [undefined] *)
  justClosed : bool;
  separatorChar : option JSString;
  characterRegex : option JSString;
  compiledCharacterRegex : option RegExp;
  insertionKeybindRegistration : option KeymapEventHandler;
  settings : CompletrSettings;
  disableSnippets : bool;
  (* fields of the host's EditorSuggest *)
  context : option EditorSuggestContext;
  scope_keys : list KeymapEventHandler;
  (* the rest of the host *)
  editor : Editor;
  next_id : nat;
  log : list Event
}.

Section Updates.
Context {HT : HostTypes}.

Definition set_justClosed (b : bool) (w : World) : World :=
  {| justClosed := b; separatorChar := separatorChar w;
     characterRegex := characterRegex w;
     compiledCharacterRegex := compiledCharacterRegex w;
     insertionKeybindRegistration := insertionKeybindRegistration w;
     settings := settings w; disableSnippets := disableSnippets w;
     context := context w; scope_keys := scope_keys w;
     editor := editor w; next_id := next_id w; log := log w |}.

Definition set_separatorChar (s : option JSString) (w : World) : World :=
  {| justClosed := justClosed w; separatorChar := s;
     characterRegex := characterRegex w;
     compiledCharacterRegex := compiledCharacterRegex w;
     insertionKeybindRegistration := insertionKeybindRegistration w;
     settings := settings w; disableSnippets := disableSnippets w;
     context := context w; scope_keys := scope_keys w;
     editor := editor w; next_id := next_id w; log := log w |}.

Definition set_compiledCharacterRegex (r : option RegExp) (w : World) : World :=
  {| justClosed := justClosed w; separatorChar := separatorChar w;
     characterRegex := characterRegex w;
     compiledCharacterRegex := r;
     insertionKeybindRegistration := insertionKeybindRegistration w;
     settings := settings w; disableSnippets := disableSnippets w;
     context := context w; scope_keys := scope_keys w;
     editor := editor w; next_id := next_id w; log := log w |}.

Definition set_insertionKeybindRegistration
    (h : option KeymapEventHandler) (w : World) : World :=
  {| justClosed := justClosed w; separatorChar := separatorChar w;
     characterRegex := characterRegex w;
     compiledCharacterRegex := compiledCharacterRegex w;
     insertionKeybindRegistration := h;
     settings := settings w; disableSnippets := disableSnippets w;
     context := context w; scope_keys := scope_keys w;
     editor := editor w; next_id := next_id w; log := log w |}.

Definition set_settings (s : CompletrSettings) (w : World) : World :=
  {| justClosed := justClosed w; separatorChar := separatorChar w;
     characterRegex := characterRegex w;
     compiledCharacterRegex := compiledCharacterRegex w;
     insertionKeybindRegistration := insertionKeybindRegistration w;
     settings := s; disableSnippets := disableSnippets w;
     context := context w; scope_keys := scope_keys w;
     editor := editor w; next_id := next_id w; log := log w |}.

Definition set_context (c : option EditorSuggestContext) (w : World) : World :=
  {| justClosed := justClosed w; separatorChar := separatorChar w;
     characterRegex := characterRegex w;
     compiledCharacterRegex := compiledCharacterRegex w;
     insertionKeybindRegistration := insertionKeybindRegistration w;
     settings := settings w; disableSnippets := disableSnippets w;
     context := c; scope_keys := scope_keys w;
     editor := editor w; next_id := next_id w; log := log w |}.

Definition set_scope_keys (ks : list KeymapEventHandler) (w : World) : World :=
  {| justClosed := justClosed w; separatorChar := separatorChar w;
     characterRegex := characterRegex w;
     compiledCharacterRegex := compiledCharacterRegex w;
     insertionKeybindRegistration := insertionKeybindRegistration w;
     settings := settings w; disableSnippets := disableSnippets w;
     context := context w; scope_keys := ks;
     editor := editor w; next_id := next_id w; log := log w |}.

Definition set_editor (e : Editor) (w : World) : World :=
  {| justClosed := justClosed w; separatorChar := separatorChar w;
     characterRegex := characterRegex w;
     compiledCharacterRegex := compiledCharacterRegex w;
     insertionKeybindRegistration := insertionKeybindRegistration w;
     settings := settings w; disableSnippets := disableSnippets w;
     context := context w; scope_keys := scope_keys w;
     editor := e; next_id := next_id w; log := log w |}.

Definition set_next_id (n : nat) (w : World) : World :=
  {| justClosed := justClosed w; separatorChar := separatorChar w;
     characterRegex := characterRegex w;
     compiledCharacterRegex := compiledCharacterRegex w;
     insertionKeybindRegistration := insertionKeybindRegistration w;
     settings := settings w; disableSnippets := disableSnippets w;
     context := context w; scope_keys := scope_keys w;
     editor := editor w; next_id := n; log := log w |}.

Definition set_log (l : list Event) (w : World) : World :=
  {| justClosed := justClosed w; separatorChar := separatorChar w;
     characterRegex := characterRegex w;
     compiledCharacterRegex := compiledCharacterRegex w;
     insertionKeybindRegistration := insertionKeybindRegistration w;
     settings := settings w; disableSnippets := disableSnippets w;
     context := context w; scope_keys := scope_keys w;
     editor := editor w; next_id := next_id w; log := l |}.

End Updates.

(** ** The monad of the methods: state, exceptions, and the event log *)

Inductive Result `{HostTypes} (A : Type) :=
| Ok (a : A) (w : World)
| Throw (e : JSError) (w : World).

Arguments Ok {_ A} a w.
Arguments Throw {_ A} e w.

Definition M `{HostTypes} (A : Type) : Type := World -> Result A.

Section Monad.
Context {HT : HostTypes}.

Definition ret {A} (a : A) : M A := fun w => Ok a w.

Definition bind {A B} (m : M A) (k : A -> M B) : M B :=
  fun w =>
    match m w with
    | Ok a w' => k a w'
    | Throw e w' => Throw e w'
    end.

Definition throw {A} (e : JSError) : M A := fun w => Throw e w.

Definition gets {A} (f : World -> A) : M A := fun w => Ok (f w) w.

Definition modify (f : World -> World) : M unit := fun w => Ok tt (f w).

Definition emit (e : Event) : M unit :=
  modify (fun w => set_log (log w ++ [e]) w).

(** A fresh object identity. *)
Definition fresh : M nat :=
  fun w => Ok (next_id w) (set_next_id (S (next_id w)) w).

Definition world_of {A} (r : Result A) : World :=
  match r with
  | Ok _ w => w
  | Throw _ w => w
  end.

End Monad.

Notation "'let!' x ':=' m 'in' k" := (bind m (fun x => k))
  (at level 10, x pattern, m at level 100, k at level 200).
Notation "m '>>' k" := (bind m (fun _ => k))
  (at level 190, right associativity).

(** ** The calls that leave the class *)

Section HostCalls.
Context {HT : HostTypes} {HS : Host}.

(** [new RegExp(source, flags)]: a fresh object, or a [SyntaxError]. *)
Definition new_RegExp (source flags : JSString) : M RegExp :=
  emit (RegExpCompiled source flags) >>
  if regexp_valid source flags then
    let! id := fresh in
    ret {| re_id := id; re_source := source; re_flags := flags |}
  else throw (SyntaxError source).

Definition editor_replaceRange_call (text : JSString) (from to : EditorPosition) : M unit :=
  emit (ReplaceRange text from to) >>
  modify (fun w => set_editor (editor_replaceRange (editor w) text from to) w).

Definition editor_setCursor_call (pos : EditorPosition) : M unit :=
  emit (SetCursor pos) >>
  modify (fun w => set_editor (editor_setCursor (editor w) pos) w).

Definition handleSnippet_call (text : JSString) (start : EditorPosition) : M unit :=
  emit (HandleSnippet text start) >>
  modify (fun w => set_editor (snippetManager_handleSnippet text start (editor w)) w).

Definition console_log (args : list JSString) : M unit := emit (ConsoleLog args).

(** [EditorSuggest.close]: recorded, otherwise opaque. *)
Definition close : M unit := emit Close.

(** [scope.register(modifiers, key, func)]: a new handler object, appended
    to [scope.keys] and returned. *)
Definition scope_register (modifiers : list JSString) (key : JSString)
    (func : Listener) : M KeymapEventHandler :=
  let! id := fresh in
  let handler := {| h_id := id; h_modifiers := modifiers; h_key := key; h_func := func |} in
  modify (fun w => set_scope_keys (scope_keys w ++ [handler]) w) >>
  emit (ScopeRegister handler) >>
  ret handler.

(** [scope.unregister(handler)]: removes that object from [scope.keys];
    nothing happens for [undefined] or for a handler that is not there. *)
Definition scope_unregister (handler : option KeymapEventHandler) : M unit :=
  emit (ScopeUnregister handler) >>
  match handler with
  | None => ret tt
  | Some h =>
      modify (fun w =>
        set_scope_keys (filter (fun k => h_id k <> h_id h) (scope_keys w)) w)
  end.

(** Modelled from the spec: [matchWordBackwards] of [editor_helpers.ts]
    (section 4.1). Walks backward from the cursor while [isWordChar] holds,
    prepending each character to the query; stops at the first character
    that fails the test (which is then the separator), at the line start,
    or after [maxLookback] characters (the separator is then empty). *)
Fixpoint matchBackward_scan (fuel : nat) (ed : Editor) (ln i : Z)
    (isWordChar : JSString -> M bool) (query : JSString) : M (JSString * JSString) :=
  match fuel with
  | O => ret (query, [])
  | S fuel' =>
      let c := editor_getRange ed {| line := ln; ch := i - 1 |} {| line := ln; ch := i |} in
      let! b := isWordChar c in
      if b : bool then matchBackward_scan fuel' ed ln (i - 1) isWordChar (c ++ query)
      else ret (query, c)
  end.

Definition matchWordBackwards (ed : Editor) (cursor : EditorPosition)
    (isWordChar : JSString -> M bool) (maxLookBack : Z) : M (JSString * JSString) :=
  matchBackward_scan (Z.to_nat (Z.min (ch cursor) maxLookBack)) ed
    (line cursor) (ch cursor) isWordChar [].

End HostCalls.

(** ** The methods of [SuggestionPopup] *)

Section Popup.
Context {HT : HostTypes} {HS : Host}.

Definition augment (context : EditorSuggestContext) (w : World) : ProviderContext :=
  {| pc_editor := editor w; pc_file := ctx_file context;
     pc_start := ctx_start context; pc_end := ctx_end context;
     pc_query := ctx_query context; pc_separatorChar := separatorChar w |}.

(** [this.context.start = p] *)
Definition assign_context_start (p : EditorPosition) : M unit :=
  let! w := gets id in
  match context w with
  | None => throw TypeError
  | Some c =>
      modify (set_context (Some {| ctx_file := ctx_file c; ctx_start := p;
                                   ctx_end := ctx_end c; ctx_query := ctx_query c |}))
  end.

(** The callback of [suggestions.forEach] in [getSuggestions]. *)
Definition fix_popup_position (suggestion : Suggestion) : M unit :=
  match suggestion with
  | Plain _ => ret tt
  | Rich _ _ None => ret tt
  | Rich _ _ (Some p) => assign_context_start p
  end.

Fixpoint forEach {A} (f : A -> M unit) (l : list A) : M unit :=
  match l with
  | [] => ret tt
  | x :: l' => f x >> forEach f l'
  end.

(** How the [for ... of] loop over the providers ended. *)
Inductive Completion := Normal | Break.

(** The loop of [getSuggestions], from the provider at position [index]
    on, with the suggestions accumulated so far. *)
Fixpoint for_of_providers (index : nat) (providers : list SuggestionProvider)
    (context : EditorSuggestContext) (suggestions : list Suggestion)
    : M (Completion * list Suggestion) :=
  match providers with
  | [] => ret (Normal, suggestions)
  | provider :: rest =>
      let! w := gets id in
      emit (ProviderCalled index) >>
      match provider_getSuggestions provider (augment context w) (settings w) with
      | Threw e => throw e
      | ReturnedNonIterable => throw TypeError
      | Returned candidates =>
          let suggestions := suggestions ++ candidates in
          if blocksAllOtherProviders provider && (0 <? Z.of_nat (length suggestions)) then
            forEach fix_popup_position suggestions >>
            ret (Break, suggestions)
          else for_of_providers (S index) rest context suggestions
      end
  end.

(** The parameter [context] and the field [this.context] are kept apart:
    the loop reads the parameter only to build a provider's argument, and
    it writes to [this.context] only on its way out, so whether the host
    passes the very object it stores makes no difference to a run. *)
Definition getSuggestions (context : EditorSuggestContext) : M (list Suggestion) :=
  let! r := for_of_providers 0 PROVIDERS context [] in
  ret r.2.

Definition getCharacterRegex : M (option RegExp) :=
  let! w := gets id in
  (if bool_decide (characterRegex w = Some (Settings.characterRegex (settings w)))
   then ret tt
   else
     let! r := new_RegExp (js "[" ++ Settings.characterRegex (settings w) ++ js "]") (js "u") in
     modify (set_compiledCharacterRegex (Some r))) >>
  gets compiledCharacterRegex.

(** [(char) => this.getCharacterRegex().test(char)] *)
Definition isWordChar (char : JSString) : M bool :=
  let! r := getCharacterRegex in
  match r with
  | None => throw TypeError
  | Some re => ret (regexp_test re char)
  end.

Definition onTrigger (cursor : EditorPosition) (file : TFile)
    : M (option EditorSuggestTriggerInfo) :=
  let! w := gets id in
  if justClosed w then
    modify (set_justClosed false) >>
    ret None
  else
    let! m := matchWordBackwards (editor w) cursor isWordChar
                (Settings.maxLookBackDistance (settings w)) in
    modify (set_separatorChar (Some m.2)) >>
    ret (Some {| ti_start := with_ch cursor (ch cursor - Z.of_nat (length m.1));
                 ti_end := cursor;
                 ti_query := m.1 |}).

Definition snippets_disabled_notice : JSString :=
  js "Completr: Please enable Live Preview mode to use snippets".

Definition selectSuggestion (value : Suggestion) : M unit :=
  let replacement := getSuggestionReplacement value in
  let! w := gets id in
  match context w with
  | None => throw TypeError
  | Some c =>
      let start := match overrideStartOf value with
                   | Some p => p
                   | None => ctx_start c
                   end in
      editor_replaceRange_call replacement start (ctx_end c) >>
      (if contains replacement (js "#") || contains replacement (js "~") then
         if negb (disableSnippets w) then handleSnippet_call replacement start
         else console_log [snippets_disabled_notice]
       else
         editor_setCursor_call (with_ch start (ch start + Z.of_nat (length replacement)))) >>
      close >>
      modify (set_justClosed true)
  end.

Definition preventNextTrigger : M unit := modify (set_justClosed true).

Definition disableInsertionKey : M unit :=
  let! w := gets id in
  match insertionKeybindRegistration w with
  | Some h => scope_unregister (Some h)
  | None => ret tt
  end.

Definition setInsertionKey (key : JSString) : M unit :=
  disableInsertionKey >>
  console_log [js "Set"; key] >>
  let! h := scope_register [] key UseSelectedItem in
  modify (set_insertionKeybindRegistration (Some h)).

(** The constructor's body after [super(app)] and the three field
    assignments: the default Enter handler is unregistered, then the
    configured key is registered. *)
Definition constructor (s : CompletrSettings) : M unit :=
  let! w := gets id in
  scope_unregister (List.find (fun k => bool_decide (h_key k = js "Enter")) (scope_keys w)) >>
  setInsertionKey (Settings.insertionKey s).

(** The object once [super(app)] has run and [disableSnippets], [settings]
    and [snippetManager] are assigned: no other field of the subclass is
    set; [legacyEditor] is the truth value of
    [app.vault.config?.legacyEditor]. *)
Definition after_super (defaultKeys : list KeymapEventHandler) (ed : Editor)
    (legacyEditor : bool) (s : CompletrSettings) : World :=
  {| justClosed := false; separatorChar := None; characterRegex := None;
     compiledCharacterRegex := None; insertionKeybindRegistration := None;
     settings := s; disableSnippets := legacyEditor;
     context := None; scope_keys := defaultKeys;
     editor := ed; next_id := S (max_list (h_id <$> defaultKeys)); log := [] |}.

Definition new_SuggestionPopup (defaultKeys : list KeymapEventHandler) (ed : Editor)
    (legacyEditor : bool) (s : CompletrSettings) : Result unit :=
  constructor s (after_super defaultKeys ed legacyEditor s).

End Popup.

(** ** The life of a popup

    What can happen to a popup between its construction and any later
    moment: the host calls one of the public methods, or the host itself
    changes the settings object, the trigger context or the editor. *)

Section Lifecycle.
Context {HT : HostTypes} {HS : Host}.

Inductive method : forall A, M A -> Prop :=
| call_getSuggestions c : method _ (getSuggestions c)
| call_onTrigger cursor file : method _ (onTrigger cursor file)
| call_selectSuggestion v : method _ (selectSuggestion v)
| call_preventNextTrigger : method _ preventNextTrigger
| call_setInsertionKey key : method _ (setInsertionKey key).

Inductive host_step : World -> World -> Prop :=
| host_settings w s : host_step w (set_settings s w)
| host_context w c : host_step w (set_context c w)
| host_editor w e : host_step w (set_editor e w).

(** The default handlers of a new scope: the host's own, each a distinct
    object. *)
Definition host_scope (defaultKeys : list KeymapEventHandler) : Prop :=
  Forall (fun k => h_func k = HostDefault) defaultKeys /\
  NoDup (h_id <$> defaultKeys).

Inductive reachable : World -> Prop :=
| reach_new defaultKeys ed legacyEditor s w :
    host_scope defaultKeys ->
    new_SuggestionPopup defaultKeys ed legacyEditor s = Ok tt w ->
    reachable w
| reach_call A (m : M A) w :
    reachable w -> method A m -> reachable (world_of (m w))
| reach_host w w' :
    reachable w -> host_step w w' -> reachable w'.

(** The custom accept-key registrations that are active in the scope. *)
Definition is_custom (k : KeymapEventHandler) : bool :=
  match h_func k with
  | UseSelectedItem => true
  | HostDefault => false
  end.

Definition custom_registrations (w : World) : list KeymapEventHandler :=
  filter (fun k => is_custom k = true) (scope_keys w).

(** The calls a computation made: what it appended to the log. *)
Definition events_of {A} (m : M A) (w : World) : list Event :=
  drop (length (log w)) (log (world_of (m w))).

Definition is_ReplaceRange (e : Event) : bool :=
  match e with ReplaceRange _ _ _ => true | _ => false end.

Definition is_ProviderCalled (e : Event) : bool :=
  match e with ProviderCalled _ => true | _ => false end.

(** The providers a run of events called, by their place in [PROVIDERS]. *)
Definition provider_calls (evs : list Event) : list nat :=
  omap (fun e => match e with ProviderCalled i => Some i | _ => None end) evs.

(** The last [overrideStart] carried by a list of suggestions. *)
Definition last_overrideStart (l : list Suggestion) : option EditorPosition :=
  list.last (omap overrideStartOf l).

Definition with_start (c : EditorSuggestContext) (p : EditorPosition)
    : EditorSuggestContext :=
  {| ctx_file := ctx_file c; ctx_start := p;
     ctx_end := ctx_end c; ctx_query := ctx_query c |}.

(** What a provider's answer contributes when it fails. *)
Definition failure_of (r : ProviderResult) : option JSError :=
  match r with
  | Returned _ => None
  | Threw e => Some e
  | ReturnedNonIterable => Some TypeError
  end.

End Lifecycle.

(** ** A reference host

    A small concrete host on which the model runs: a line-based text
    buffer with a cursor, a matcher for character classes made of single
    characters and ranges, a snippet engine that only parks the cursor, and
    providers that answer the same thing whatever they are asked. *)

Module Ref.

Record RefEditor := { doc : list JSString; cursor : EditorPosition }.

Definition newline : N := 10%N.

Fixpoint flatten (lines : list JSString) : JSString :=
  match lines with
  | [] => []
  | l :: rest =>
      match rest with
      | [] => l
      | _ :: _ => l ++ newline :: flatten rest
      end
  end.

Fixpoint split_lines (s cur : JSString) : list JSString :=
  match s with
  | [] => [cur]
  | c :: s' =>
      if N.eqb c newline then cur :: split_lines s' []
      else split_lines s' (cur ++ [c])
  end.

Fixpoint offset_lines (lines : list JSString) (ln c : nat) : nat :=
  match lines, ln with
  | [], _ => 0
  | l :: _, O => Nat.min c (length l)
  | l :: rest, S ln' => S (length l) + offset_lines rest ln' c
  end%nat.

Definition offset (ed : RefEditor) (p : EditorPosition) : nat :=
  offset_lines (doc ed) (Z.to_nat (line p)) (Z.to_nat (ch p)).

Definition getRange (ed : RefEditor) (from to : EditorPosition) : JSString :=
  take (offset ed to - offset ed from) (drop (offset ed from) (flatten (doc ed))).

Definition replaceRange (ed : RefEditor) (text : JSString)
    (from to : EditorPosition) : RefEditor :=
  {| doc := split_lines (take (offset ed from) (flatten (doc ed)) ++ text ++
                         drop (offset ed to) (flatten (doc ed))) [];
     cursor := cursor ed |}.

Definition setCursor (ed : RefEditor) (p : EditorPosition) : RefEditor :=
  {| doc := doc ed; cursor := p |}.

Definition handleSnippet (text : JSString) (start : EditorPosition)
    (ed : RefEditor) : RefEditor :=
  setCursor ed start.

(** Characters this matcher does not take inside a class: brackets, the
    backslash and the caret. *)
Definition unsupported (c : N) : bool :=
  N.eqb c 91 || N.eqb c 92 || N.eqb c 93 || N.eqb c 94.

Fixpoint parse_class (s : JSString) : option (list (N * N)) :=
  match s with
  | [] => Some []
  | c1 :: s1 =>
      if unsupported c1 then None
      else
        match s1 with
        | d :: c2 :: rest =>
            if N.eqb d 45 then
              if unsupported c2 || N.ltb c2 c1 then None
              else cons (c1, c2) <$> parse_class rest
            else cons (c1, c1) <$> parse_class s1
        | _ => cons (c1, c1) <$> parse_class s1
        end
  end.

Definition class_of (source : JSString) : option (list (N * N)) :=
  match source with
  | 91%N :: rest =>
      match reverse rest with
      | 93%N :: inner => parse_class (reverse inner)
      | _ => None
      end
  | _ => None
  end.

Definition valid (source flags : JSString) : bool :=
  bool_decide (flags = js "u") &&
  match class_of source with Some _ => true | None => false end.

Definition test (re : RegExp) (s : JSString) : bool :=
  match class_of (re_source re) with
  | Some ranges =>
      existsb (fun c => existsb (fun r => N.leb r.1 c && N.leb c r.2) ranges) s
  | None => false
  end.

#[global] Instance types : HostTypes := {| Editor := RefEditor; TFile := JSString |}.

Definition host (providers : list SuggestionProvider) : Host :=
  {| editor_getRange := getRange;
     editor_replaceRange := replaceRange;
     editor_setCursor := setCursor;
     snippetManager_handleSnippet := handleSnippet;
     regexp_valid := valid;
     regexp_test := test;
     PROVIDERS := providers |}.

Definition answers (blocks : bool) (r : ProviderResult) : SuggestionProvider :=
  {| blocksAllOtherProviders := blocks;
     provider_getSuggestions := fun _ _ => r |}.

(** A word list that completes the query [qu]. *)
Definition wordList : SuggestionProvider :=
  {| blocksAllOtherProviders := false;
     provider_getSuggestions := fun c _ =>
       if bool_decide (pc_query c = js "qu") then Returned [Plain (js "query")]
       else Returned [] |}.

Definition defaultKeys : list KeymapEventHandler :=
  [ {| h_id := 0; h_modifiers := []; h_key := js "ArrowUp"; h_func := HostDefault |};
    {| h_id := 1; h_modifiers := []; h_key := js "ArrowDown"; h_func := HostDefault |};
    {| h_id := 2; h_modifiers := []; h_key := js "Enter"; h_func := HostDefault |};
    {| h_id := 3; h_modifiers := []; h_key := js "Escape"; h_func := HostDefault |} ].

Definition config : CompletrSettings :=
  {| Settings.insertionKey := js "Enter";
     Settings.characterRegex := js "a-zA-Z";
     Settings.maxLookBackDistance := 50 |}.

Definition the_qu : RefEditor :=
  {| doc := [js "The qu"]; cursor := {| line := 0; ch := 6 |} |}.

(** A new popup over the buffer [The qu]; [legacyEditor] says whether the
    host disables snippets. *)
Definition popup (legacyEditor : bool) : World :=
  world_of (new_SuggestionPopup defaultKeys the_qu legacyEditor config).

(** The trigger context for the query [qu] at the end of [The qu]. *)
Definition ctx_qu : EditorSuggestContext :=
  {| ctx_file := js "note.md";
     ctx_start := {| line := 0; ch := 4 |};
     ctx_end := {| line := 0; ch := 6 |};
     ctx_query := js "qu" |}.

(** The popup once the host has opened it on that context. *)
Definition opened (legacyEditor : bool) : World :=
  set_context (Some ctx_qu) (popup legacyEditor).

(** Provider lists to run the collection on. *)
Definition broken_first : list SuggestionProvider :=
  [answers false (Threw (Thrown (js "boom"))); wordList].

Definition broken_second : list SuggestionProvider :=
  [wordList; answers false ReturnedNonIterable; answers false (Returned [Plain (js "quiz")])].

Definition blocking_second : list SuggestionProvider :=
  [answers true (Returned []);
   answers true (Returned [Plain (js "quote");
                           Rich (js "quantity") (js "$quantity") (Some {| line := 0; ch := 3 |})]);
   wordList].

Definition none_blocking : list SuggestionProvider :=
  [answers true (Returned []);
   answers false (Returned [Plain (js "quote"); Plain (js "quiz")]);
   wordList].

(** A structured candidate that also replaces the two characters before
    the detected start, and a snippet. *)
Definition wider : Suggestion :=
  Rich (js "query") (js "query") (Some {| line := 0; ch := 2 |}).

Definition snippet : Suggestion := Plain (js "\frac{#}{#}").

End Ref.

(** ** Vocabulary of the statements *)

(** A replacement is a snippet when it holds [#] or [~]. *)
Definition is_snippet (replacement : JSString) : Prop :=
  35%N ∈ replacement \/ 126%N ∈ replacement.

Section Vocabulary.
Context {HT : HostTypes}.

(** What every popup satisfies from its construction on: the
    [characterRegex] field is never assigned; the handlers of the scope are
    distinct objects, all older than the next fresh identity; and a custom
    registration that is active in the scope is the one the popup holds. *)
Definition Inv (w : World) : Prop :=
  characterRegex w = None /\
  NoDup (h_id <$> scope_keys w) /\
  (forall k, k ∈ scope_keys w -> (h_id k < next_id w)%nat) /\
  (forall k, k ∈ scope_keys w -> is_custom k = true ->
             insertionKeybindRegistration w = Some k).

(** [w'] differs from [w] in nothing the accept key or the cache key
    depends on. *)
Definition untouched (w w' : World) : Prop :=
  characterRegex w' = characterRegex w /\
  scope_keys w' = scope_keys w /\
  insertionKeybindRegistration w' = insertionKeybindRegistration w /\
  (next_id w <= next_id w')%nat.

(** The source of the character-class pattern [getCharacterRegex] compiles. *)
Definition class_source (w : World) : JSString :=
  js "[" ++ Settings.characterRegex (settings w) ++ js "]".

(** A property of worlds that a computation keeps, however it ends. *)
Definition keeps {A} (I : World -> Prop) (m : M A) : Prop :=
  forall w, I w -> I (world_of (m w)).

(** The handler [setInsertionKey] registers for [key] in the world [w]. *)
Definition registration_for (key : JSString) (w : World) : KeymapEventHandler :=
  {| h_id := next_id w; h_modifiers := []; h_key := key; h_func := UseSelectedItem |}.

(** The scope once the held registration, if any, is unregistered. *)
Definition scope_without (held : option KeymapEventHandler)
    (keys : list KeymapEventHandler) : list KeymapEventHandler :=
  match held with
  | Some h => filter (fun k => h_id k <> h_id h) keys
  | None => keys
  end.

(** The matcher [getCharacterRegex] builds in the world [w]. *)
Definition compiled_in (w : World) : RegExp :=
  {| re_id := next_id w; re_source := class_source w; re_flags := js "u" |}.

Definition after_compile (w : World) : World :=
  set_compiledCharacterRegex (Some (compiled_in w))
    (set_next_id (S (next_id w))
       (set_log (log w ++ [RegExpCompiled (class_source w) (js "u")]) w)).

End Vocabulary.

(** [run] unfolds the monad under a computation applied to a world. *)
Ltac run := unfold bind, ret, gets, modify, emit, throw, fresh; simpl.

(** * Properties *)

(** ** Generic facts about the monad and the log *)

Section MonadFacts.
Context {HT : HostTypes}.

Lemma events_of_app {A} (m : M A) (w : World) (evs : list Event) :
  log (world_of (m w)) = log w ++ evs -> events_of m w = evs.
Proof.
  intros E. unfold events_of. rewrite E. apply drop_app_length.
Qed.

Lemma keeps_ret {A} I (a : A) : keeps I (ret a).
Proof. intros w Hw. exact Hw. Qed.

Lemma keeps_throw {A} I e : keeps I (@throw _ A e).
Proof. intros w Hw. exact Hw. Qed.

Lemma keeps_gets {A} I (f : World -> A) : keeps I (gets f).
Proof. intros w Hw. exact Hw. Qed.

Lemma keeps_modify I (f : World -> World) :
  (forall w, I w -> I (f w)) -> keeps I (modify f).
Proof. intros Hf w Hw. apply Hf, Hw. Qed.

Lemma keeps_bind {A B} I (m : M A) (k : A -> M B) :
  keeps I m -> (forall a, keeps I (k a)) -> keeps I (bind m k).
Proof.
  intros Hm Hk w Hw. unfold bind.
  specialize (Hm w Hw). destruct (m w) as [a w'|e w']; simpl in *.
  - apply Hk, Hm.
  - exact Hm.
Qed.

Lemma keeps_forEach {A} I (f : A -> M unit) (l : list A) :
  (forall a, keeps I (f a)) -> keeps I (forEach f l).
Proof.
  intros Hf. induction l as [|x l IH]; simpl.
  - apply keeps_ret.
  - apply keeps_bind; [apply Hf | intros _; exact IH].
Qed.

End MonadFacts.

(** [keeps_step] peels one constructor of a computation off a [keeps]
    goal, closing the obligation of a field update with [side]. *)
Ltac keeps_step side :=
  first
    [ apply keeps_ret
    | apply keeps_throw
    | apply keeps_gets
    | apply keeps_bind; [|intros ?]
    | apply keeps_modify; intros ? ?; side
    | match goal with
      | |- keeps _ (match ?x with _ => _ end) => destruct x
      end ].

(** ** Strings *)

Lemma startsWith_single (c : N) (s : JSString) :
  startsWith [c] s = true <-> exists s', s = c :: s'.
Proof.
  destruct s as [|x s']; simpl.
  - split; [discriminate | intros [? ?]; discriminate].
  - rewrite andb_true_r, N.eqb_eq. split.
    + intros ->. eauto.
    + intros [? E]. congruence.
Qed.

Lemma contains_single (c : N) (s : JSString) :
  contains s [c] = true <-> c ∈ s.
Proof.
  induction s as [|x s IH].
  - simpl. split; [discriminate | intros Hin; inversion Hin].
  - change (contains (x :: s) [c]) with (startsWith [c] (x :: s) || contains s [c]).
    rewrite orb_true_iff, IH, startsWith_single, elem_of_cons.
    split.
    + intros [[? E]|Hin]; [left; congruence | right; exact Hin].
    + intros [->|Hin]; [left; eauto | right; exact Hin].
Qed.

Lemma js_hash : js "#" = [35%N].
Proof. reflexivity. Qed.

Lemma js_tilde : js "~" = [126%N].
Proof. reflexivity. Qed.

Lemma snippet_test (replacement : JSString) :
  contains replacement (js "#") || contains replacement (js "~") = true
  <-> is_snippet replacement.
Proof.
  unfold is_snippet.
  rewrite orb_true_iff, js_hash, js_tilde, !contains_single. reflexivity.
Qed.

(** ** Collecting suggestions *)

Section Collection.
Context {HT : HostTypes} {HS : Host}.

Lemma last_cons_default {A} (d x : A) (l : list A) :
  default d (list.last (x :: l)) = default x (list.last l).
Proof. rewrite last_cons. destruct (list.last l); reflexivity. Qed.

(** The [forEach] of the short-circuit moves [context.start] to the last
    [overrideStart] of the list, and does nothing else. *)
Lemma forEach_fix_popup_position (l : list Suggestion) :
  forall (w : World) (c : EditorSuggestContext),
    context w = Some c ->
    exists w',
      forEach fix_popup_position l w = Ok tt w' /\
      context w' = Some (with_start c (default (ctx_start c) (last_overrideStart l))) /\
      log w' = log w.
Proof.
  induction l as [|s l IH]; intros w c Hc.
  - exists w. repeat split. rewrite Hc. destruct c; reflexivity.
  - destruct s as [t|d r [p|]].
    + exact (IH w c Hc).
    + destruct (IH (set_context (Some (with_start c p)) w) (with_start c p) eq_refl)
        as (w' & Hrun & Hctx & Hlog).
      exists w'. split; [|split].
      * simpl. unfold assign_context_start. run. rewrite Hc. exact Hrun.
      * rewrite Hctx. unfold last_overrideStart. simpl.
        rewrite last_cons_default. reflexivity.
      * exact Hlog.
    + exact (IH w c Hc).
Qed.

Lemma forEach_fix_log (l : list Suggestion) (w : World) :
  log (world_of (forEach fix_popup_position l w)) = log w.
Proof.
  apply (keeps_forEach (fun w' => log w' = log w)); [|reflexivity].
  intros [t|d r [p|]] w' Hw'; try exact Hw'.
  simpl. unfold assign_context_start. run.
  destruct (context w'); exact Hw'.
Qed.

Lemma omap_cons_eq {A B} (f : A -> option B) (x : A) (l : list A) :
  omap f (x :: l) =
  match f x with
  | Some y => y :: omap f l
  | None => omap f l
  end.
Proof. reflexivity. Qed.

Lemma provider_calls_app (a b : list Event) :
  provider_calls (a ++ b) = provider_calls a ++ provider_calls b.
Proof. apply omap_app. Qed.

Lemma provider_calls_fmap (l : list nat) :
  provider_calls (ProviderCalled <$> l) = l.
Proof.
  induction l as [|x l IH]; [reflexivity|].
  rewrite fmap_cons. unfold provider_calls in *.
  rewrite omap_cons_eq. f_equal. exact IH.
Qed.

Section Loop.
Variable context0 : EditorSuggestContext.

(** The loop only ever appends to the log. *)
Lemma keeps_log_prefix_loop providers :
  forall index suggestions (w : World),
    exists evs,
      log (world_of (for_of_providers index providers context0 suggestions w))
        = log w ++ evs.
Proof.
  induction providers as [|q qs IH]; intros index suggestions w.
  - exists []. simpl. rewrite app_nil_r. reflexivity.
  - simpl. run.
    destruct (provider_getSuggestions q (augment context0 w) (settings w))
      as [cands|e|]; [|exists [ProviderCalled index]; reflexivity ..].
    destruct (blocksAllOtherProviders q
              && (0 <? Z.of_nat (length (suggestions ++ cands)))).
    + exists [ProviderCalled index].
      pose proof (forEach_fix_log (suggestions ++ cands)
                    (set_log (log w ++ [ProviderCalled index]) w)) as E.
      destruct (forEach fix_popup_position (suggestions ++ cands)
                  (set_log (log w ++ [ProviderCalled index]) w)); exact E.
    + destruct (IH (S index) (suggestions ++ cands)
                  (set_log (log w ++ [ProviderCalled index]) w)) as [evs E].
      exists (ProviderCalled index :: evs). rewrite E. simpl.
      rewrite <- app_assoc. reflexivity.
Qed.

(** One turn of the loop, by what the provider answers. *)
Lemma for_of_step index provider rest suggestions (w : World) :
  for_of_providers index (provider :: rest) context0 suggestions w =
  let w1 := set_log (log w ++ [ProviderCalled index]) w in
  match provider_getSuggestions provider (augment context0 w) (settings w) with
  | Threw e => Throw e w1
  | ReturnedNonIterable => Throw TypeError w1
  | Returned candidates =>
      if blocksAllOtherProviders provider
         && (0 <? Z.of_nat (length (suggestions ++ candidates)))
      then (forEach fix_popup_position (suggestions ++ candidates)
              >> ret (Break, suggestions ++ candidates)) w1
      else for_of_providers (S index) rest context0 (suggestions ++ candidates) w1
  end.
Proof.
  simpl. run.
  destruct (provider_getSuggestions provider (augment context0 w) (settings w));
    try reflexivity.
  destruct (blocksAllOtherProviders provider
            && (0 <? Z.of_nat (length (suggestions ++ candidates)))); reflexivity.
Qed.

(** When the short-circuit is taken, only the provider at hand is logged. *)
Lemma short_circuit_log suggestions (w : World) :
  log (world_of ((forEach fix_popup_position suggestions
                    >> ret (Break, suggestions)) w)) = log w.
Proof.
  unfold bind. pose proof (forEach_fix_log suggestions w) as E.
  destruct (forEach fix_popup_position suggestions w); exact E.
Qed.

(** When every provider answers and no short-circuit is taken (a flagged
    provider has nothing accumulated when its turn ends), the loop ends
    normally with the answers in order, having called each provider once. *)
Lemma for_of_concat providers :
  forall index suggestions (w : World) answers,
    Forall2 (fun p l => provider_getSuggestions p (augment context0 w) (settings w)
                        = Returned l) providers answers ->
    (forall i p, providers !! i = Some p -> blocksAllOtherProviders p = true ->
                 suggestions ++ concat (take (S i) answers) = []) ->
    for_of_providers index providers context0 suggestions w =
    Ok (Normal, suggestions ++ concat answers)
       (set_log (log w ++ (ProviderCalled <$> seq index (length providers))) w).
Proof.
  induction providers as [|p ps IH]; intros index suggestions w answers Hans Hnb.
  - inversion Hans; subst. simpl. run. rewrite !app_nil_r.
    destruct w; reflexivity.
  - inversion Hans as [|? l ? ls Hp Hrest]; subst.
    rewrite for_of_step, Hp.
    assert (blocksAllOtherProviders p
            && (0 <? Z.of_nat (length (suggestions ++ l))) = false) as ->.
    { destruct (blocksAllOtherProviders p) eqn:Hb; [|reflexivity].
      pose proof (Hnb 0%nat p eq_refl Hb) as E. simpl in E.
      rewrite app_nil_r in E. rewrite E. reflexivity. }
    cbv zeta.
    rewrite (IH (S index) (suggestions ++ l)
               (set_log (log w ++ [ProviderCalled index]) w) ls Hrest).
    + simpl. rewrite <- !app_assoc. reflexivity.
    + intros i q Hi Hb. pose proof (Hnb (S i) q Hi Hb) as E.
      simpl in E. rewrite <- app_assoc. exact E.
Qed.

(** A blocking provider that answers with a candidate is the last one the
    loop calls. *)
Lemma for_of_blocking providers :
  forall index suggestions (w : World) n p l,
    providers !! n = Some p ->
    blocksAllOtherProviders p = true ->
    provider_getSuggestions p (augment context0 w) (settings w) = Returned l ->
    l <> [] ->
    exists evs,
      log (world_of (for_of_providers index providers context0 suggestions w))
        = log w ++ evs /\
      forall j, j ∈ provider_calls evs -> (j <= index + n)%nat.
Proof.
  induction providers as [|q qs IH]; intros index suggestions w n p l Hn Hb Hp Hl.
  - discriminate.
  - rewrite for_of_step. destruct n as [|n]; simpl in Hn.
    + injection Hn as ->. rewrite Hp, Hb.
      assert ((0 <? Z.of_nat (length (suggestions ++ l))) = true) as ->.
      { apply Z.ltb_lt. rewrite length_app. destruct l; [congruence|simpl; lia]. }
      simpl. exists [ProviderCalled index]. split.
      * rewrite short_circuit_log. reflexivity.
      * intros j Hj. apply list_elem_of_singleton in Hj. lia.
    + destruct (provider_getSuggestions q (augment context0 w) (settings w))
        as [cands|e|] eqn:Hq.
      * destruct (blocksAllOtherProviders q
                  && (0 <? Z.of_nat (length (suggestions ++ cands)))).
        -- exists [ProviderCalled index]. split.
           ++ simpl. rewrite short_circuit_log. reflexivity.
           ++ intros j Hj. apply list_elem_of_singleton in Hj. lia.
        -- destruct (IH (S index) (suggestions ++ cands)
                       (set_log (log w ++ [ProviderCalled index]) w) n p l Hn Hb Hp Hl)
             as (evs & Hlog & Hbound).
           exists (ProviderCalled index :: evs). split.
           ++ simpl. simpl in Hlog. rewrite Hlog, <- app_assoc. reflexivity.
           ++ intros j Hj. simpl in Hj. apply elem_of_cons in Hj as [->|Hj]; [lia|].
              specialize (Hbound j Hj). lia.
      * exists [ProviderCalled index]. split; [reflexivity|].
        intros j Hj. apply list_elem_of_singleton in Hj. lia.
      * exists [ProviderCalled index]. split; [reflexivity|].
        intros j Hj. apply list_elem_of_singleton in Hj. lia.
Qed.

(** A provider that fails when the loop reaches it ends the loop with its
    error; no provider after it is called. *)
Lemma for_of_failure providers :
  forall index suggestions (w : World) n p e,
    providers !! n = Some p ->
    failure_of (provider_getSuggestions p (augment context0 w) (settings w)) = Some e ->
    (index + n)%nat ∈ provider_calls
       (events_of (for_of_providers index providers context0 suggestions) w) ->
    exists evs,
      for_of_providers index providers context0 suggestions w
        = Throw e (set_log (log w ++ evs) w) /\
      forall j, j ∈ provider_calls evs -> (j <= index + n)%nat.
Proof.
  induction providers as [|q qs IH]; intros index suggestions w n p e Hn Hf Hcalled.
  - discriminate.
  - unfold events_of in Hcalled.
    assert (Hone : forall (r : Result (Completion * list Suggestion)) k,
              log (world_of r) = log w ++ [ProviderCalled index] ->
              k ∈ provider_calls (drop (length (log w)) (log (world_of r))) ->
              k = index).
    { intros r k Hlog Hin. rewrite Hlog, drop_app_length in Hin.
      apply list_elem_of_singleton in Hin. exact Hin. }
    rewrite for_of_step in Hcalled |- *. cbv zeta in Hcalled |- *.
    destruct n as [|n]; simpl in Hn.
    + injection Hn as ->.
      exists [ProviderCalled index]. split.
      * destruct (provider_getSuggestions p (augment context0 w) (settings w));
          simpl in Hf; [discriminate | injection Hf as -> | injection Hf as <-];
          reflexivity.
      * intros j Hj. apply list_elem_of_singleton in Hj. lia.
    + destruct (provider_getSuggestions q (augment context0 w) (settings w))
        as [cands|e'|] eqn:Hq.
      * destruct (blocksAllOtherProviders q
                  && (0 <? Z.of_nat (length (suggestions ++ cands)))) eqn:Hcut.
        -- apply Hone in Hcalled; [lia|].
           rewrite short_circuit_log. reflexivity.
        -- set (w1 := set_log (log w ++ [ProviderCalled index]) w) in *.
           destruct (keeps_log_prefix_loop qs (S index) (suggestions ++ cands) w1)
             as [evs' Hevs'].
           assert (Hlog : log (world_of (for_of_providers (S index) qs context0
                                           (suggestions ++ cands) w1))
                          = log w ++ ProviderCalled index :: evs').
           { rewrite Hevs'. subst w1. simpl. rewrite <- app_assoc. reflexivity. }
           rewrite Hlog, drop_app_length in Hcalled.
           simpl in Hcalled. apply elem_of_cons in Hcalled as [Heq|Hin]; [lia|].
           destruct (IH (S index) (suggestions ++ cands) w1 n p e Hn Hf)
             as (evs & Hrun & Hbound).
           { rewrite (events_of_app _ w1 evs' Hevs').
             replace (S index + n)%nat with (index + S n)%nat by lia. exact Hin. }
           exists (ProviderCalled index :: evs). split.
           ++ rewrite Hrun. subst w1. simpl.
              rewrite <- app_assoc. reflexivity.
           ++ intros j Hj. simpl in Hj. apply elem_of_cons in Hj as [->|Hj]; [lia|].
              specialize (Hbound j Hj). lia.
      * apply Hone in Hcalled; [lia|reflexivity].
      * apply Hone in Hcalled; [lia|reflexivity].
Qed.

(** What the loop does to the trigger context: the short-circuit moves its
    start to the last [overrideStart] collected; every other way out leaves
    the context as it was. *)
Lemma for_of_context providers :
  forall index suggestions (w : World) (c : EditorSuggestContext),
    context w = Some c ->
    match for_of_providers index providers context0 suggestions w with
    | Ok (Break, result) w' =>
        result <> [] /\
        context w' = Some (with_start c (default (ctx_start c) (last_overrideStart result)))
    | Ok (Normal, _) w' => context w' = Some c
    | Throw _ w' => context w' = Some c
    end.
Proof.
  induction providers as [|q qs IH]; intros index suggestions w c Hc.
  - exact Hc.
  - rewrite for_of_step.
    destruct (provider_getSuggestions q (augment context0 w) (settings w))
      as [cands|e|]; [|exact Hc|exact Hc].
    destruct (blocksAllOtherProviders q
              && (0 <? Z.of_nat (length (suggestions ++ cands)))) eqn:Hcut.
    + apply andb_true_iff in Hcut as [_ Hlen]. apply Z.ltb_lt in Hlen.
      destruct (forEach_fix_popup_position (suggestions ++ cands)
                  (set_log (log w ++ [ProviderCalled index]) w) c Hc)
        as (w' & Hrun & Hctx & _).
      cbv zeta. unfold bind. rewrite Hrun. simpl. split; [|exact Hctx].
      intros E. rewrite E in Hlen. simpl in Hlen. lia.
    + apply IH. exact Hc.
Qed.

End Loop.

Lemma getSuggestions_unfold (c : EditorSuggestContext) (w : World) :
  getSuggestions c w =
  match for_of_providers 0 PROVIDERS c [] w with
  | Ok r w' => Ok r.2 w'
  | Throw e w' => Throw e w'
  end.
Proof. reflexivity. Qed.

Lemma getSuggestions_world (c : EditorSuggestContext) (w : World) :
  world_of (getSuggestions c w) = world_of (for_of_providers 0 PROVIDERS c [] w).
Proof.
  rewrite getSuggestions_unfold.
  destruct (for_of_providers 0 PROVIDERS c [] w); reflexivity.
Qed.

Lemma getSuggestions_events (c : EditorSuggestContext) (w : World) :
  events_of (getSuggestions c) w = events_of (for_of_providers 0 PROVIDERS c []) w.
Proof. unfold events_of. rewrite getSuggestions_world. reflexivity. Qed.

(** The last [overrideStart] is the one of the last structured candidate
    that carries one; plain candidates never count. *)
Lemma last_overrideStart_spec (l : list Suggestion) (p : EditorPosition) :
  last_overrideStart l = Some p <->
  exists l1 d r l2,
    l = l1 ++ Rich d r (Some p) :: l2 /\
    Forall (fun s => overrideStartOf s = None) l2.
Proof.
  unfold last_overrideStart. split.
  - induction l as [|s l IH]; [discriminate|].
    rewrite omap_cons_eq. destruct (overrideStartOf s) as [q|] eqn:Hs.
    + rewrite last_cons.
      destruct (list.last (omap overrideStartOf l)) as [q'|] eqn:Hl.
      * intros E. destruct (IH E) as (l1 & d & r & l2 & -> & Hl2).
        exists (s :: l1), d, r, l2. split; [reflexivity|exact Hl2].
      * intros [= ->]. destruct s as [t|d r o]; simpl in Hs; [discriminate|subst o].
        exists [], d, r, l. split; [reflexivity|].
        apply last_None in Hl. clear IH. induction l as [|s l IH]; [constructor|].
        rewrite omap_cons_eq in Hl. destruct (overrideStartOf s) eqn:E; [discriminate|].
        constructor; [exact E | exact (IH Hl)].
    + intros E. destruct (IH E) as (l1 & d & r & l2 & -> & Hl2).
      exists (s :: l1), d, r, l2. split; [reflexivity|exact Hl2].
  - intros (l1 & d & r & l2 & -> & Hl2).
    rewrite omap_app, omap_cons_eq. simpl.
    assert (omap overrideStartOf l2 = []) as ->.
    { induction Hl2 as [|s l2 Hs _ IH]; [reflexivity|].
      rewrite omap_cons_eq, Hs. exact IH. }
    apply last_snoc.
Qed.

(** C4: when no provider blocks (none is flagged
    [blocksAllOtherProviders], or a flagged one has nothing accumulated
    when its turn ends) and every provider returns a list, the collected
    result is the concatenation of the providers' lists in priority order
    (each list in its own order), and every provider has been called once,
    in that order. *)
Theorem getSuggestions_concatenates
    (c : EditorSuggestContext) (w : World) (answers : list (list Suggestion)) :
  Forall2 (fun p l => provider_getSuggestions p (augment c w) (settings w) = Returned l)
          PROVIDERS answers ->
  (forall i p, PROVIDERS !! i = Some p -> blocksAllOtherProviders p = true ->
               concat (take (S i) answers) = []) ->
  exists w',
    getSuggestions c w = Ok (concat answers) w' /\
    provider_calls (events_of (getSuggestions c) w) = seq 0 (length PROVIDERS).
Proof.
  intros Hans Hnb.
  pose proof (for_of_concat c PROVIDERS 0%nat [] w answers Hans Hnb) as Hrun.
  exists (set_log (log w ++ (ProviderCalled <$> seq 0 (length PROVIDERS))) w). split.
  - rewrite getSuggestions_unfold, Hrun. reflexivity.
  - rewrite getSuggestions_events.
    rewrite (events_of_app _ w (ProviderCalled <$> seq 0 (length PROVIDERS)));
      [|rewrite Hrun; reflexivity].
    apply provider_calls_fmap.
Qed.

(** The plain reading of C4: no provider carries the flag. *)
Corollary getSuggestions_concatenates_unflagged
    (c : EditorSuggestContext) (w : World) (answers : list (list Suggestion)) :
  Forall (fun p => blocksAllOtherProviders p = false) PROVIDERS ->
  Forall2 (fun p l => provider_getSuggestions p (augment c w) (settings w) = Returned l)
          PROVIDERS answers ->
  exists w', getSuggestions c w = Ok (concat answers) w'.
Proof.
  intros Hflags Hans.
  pose proof (for_of_concat c PROVIDERS 0%nat [] w answers Hans) as Hrun.
  eexists. rewrite getSuggestions_unfold, Hrun; [reflexivity|].
  intros i p Hi Hb. rewrite Forall_forall in Hflags.
  rewrite (Hflags p) in Hb; [discriminate|].
  eapply list_elem_of_lookup_2, Hi.
Qed.

(** C3: when a provider flagged [blocksAllOtherProviders] answers with at
    least one candidate, no provider after it in the priority order is
    called during that collection. *)
Theorem blocking_provider_stops_collection
    (c : EditorSuggestContext) (w : World) (i : nat)
    (p : SuggestionProvider) (l : list Suggestion) :
  PROVIDERS !! i = Some p ->
  blocksAllOtherProviders p = true ->
  provider_getSuggestions p (augment c w) (settings w) = Returned l ->
  l <> [] ->
  forall j, j ∈ provider_calls (events_of (getSuggestions c) w) -> (j <= i)%nat.
Proof.
  intros Hi Hb Hp Hl j Hj.
  destruct (for_of_blocking c PROVIDERS 0%nat [] w i p l Hi Hb Hp Hl) as (evs & Hlog & Hbound).
  rewrite getSuggestions_events, (events_of_app _ w evs Hlog) in Hj.
  exact (Hbound j Hj).
Qed.

(** C2, as the code has it: a provider that throws (or whose answer cannot
    be iterated) when the collection reaches it makes [getSuggestions]
    throw that error: no candidates are returned, and no provider after it
    is called. *)
Theorem failing_provider_aborts_collection
    (c : EditorSuggestContext) (w : World) (i : nat)
    (p : SuggestionProvider) (e : JSError) :
  PROVIDERS !! i = Some p ->
  failure_of (provider_getSuggestions p (augment c w) (settings w)) = Some e ->
  i ∈ provider_calls (events_of (getSuggestions c) w) ->
  exists evs,
    getSuggestions c w = Throw e (set_log (log w ++ evs) w) /\
    forall j, j ∈ provider_calls evs -> (j <= i)%nat.
Proof.
  intros Hi Hf Hcalled. rewrite getSuggestions_events in Hcalled.
  destruct (for_of_failure c PROVIDERS 0%nat [] w i p e Hi Hf Hcalled)
    as (evs & Hrun & Hbound).
  exists evs. split; [|exact Hbound].
  rewrite getSuggestions_unfold, Hrun. reflexivity.
Qed.

(** C6: when the loop of [getSuggestions] ends by the blocking
    short-circuit, the start of the trigger context becomes the last
    [overrideStart] carried by a structured candidate of the collected
    result (plain candidates are skipped; with no such candidate the start
    stays); when the loop ends any other way, the trigger context is left
    as it was. *)
Theorem short_circuit_adjusts_start
    (c : EditorSuggestContext) (w : World) (c0 : EditorSuggestContext) :
  context w = Some c0 ->
  match for_of_providers 0 PROVIDERS c [] w with
  | Ok (Break, result) w' =>
      getSuggestions c w = Ok result w' /\
      result <> [] /\
      context w' = Some (with_start c0 (default (ctx_start c0) (last_overrideStart result)))
  | Ok (Normal, result) w' =>
      getSuggestions c w = Ok result w' /\ context w' = Some c0
  | Throw e w' =>
      getSuggestions c w = Throw e w' /\ context w' = Some c0
  end.
Proof.
  intros Hc. pose proof (for_of_context c PROVIDERS 0%nat [] w c0 Hc) as Hctx.
  rewrite getSuggestions_unfold.
  destruct (for_of_providers 0 PROVIDERS c [] w) as [[[|] result] w'|e w'].
  - split; [reflexivity|exact Hctx].
  - destruct Hctx as [Hne Hctx]. repeat split; assumption.
  - split; [reflexivity|exact Hctx].
Qed.

End Collection.

(** ** Accepting a suggestion *)

Section Acceptance.
Context {HT : HostTypes} {HS : Host}.

(** Everything [selectSuggestion] does when a trigger context is there. *)
Lemma selectSuggestion_run (value : Suggestion) (w : World) (c : EditorSuggestContext) :
  context w = Some c ->
  let replacement := getSuggestionReplacement value in
  let start := default (ctx_start c) (overrideStartOf value) in
  let replaced := editor_replaceRange (editor w) replacement start (ctx_end c) in
  let after := with_ch start (ch start + Z.of_nat (length replacement)) in
  exists w',
    selectSuggestion value w = Ok tt w' /\
    justClosed w' = true /\
    settings w' = settings w /\
    log w' = log w ++
      [ReplaceRange replacement start (ctx_end c);
       if contains replacement (js "#") || contains replacement (js "~")
       then if disableSnippets w then ConsoleLog [snippets_disabled_notice]
            else HandleSnippet replacement start
       else SetCursor after;
       Close] /\
    editor w' =
      if contains replacement (js "#") || contains replacement (js "~")
      then if disableSnippets w then replaced
           else snippetManager_handleSnippet replacement start replaced
      else editor_setCursor replaced after.
Proof.
  intros Hc. cbv zeta. unfold selectSuggestion. run. rewrite Hc.
  replace (match overrideStartOf value with Some p => p | None => ctx_start c end)
    with (default (ctx_start c) (overrideStartOf value))
    by (destruct (overrideStartOf value); reflexivity).
  destruct (contains (getSuggestionReplacement value) (js "#")
            || contains (getSuggestionReplacement value) (js "~"));
    [destruct (disableSnippets w)|];
    (eexists; split; [reflexivity|]; simpl; rewrite <- !app_assoc; auto).
Qed.

(** C5: accepting a candidate calls [replaceRange] exactly once. For a
    structured candidate with an [overrideStart] the span starts at that
    position; for a structured candidate without one, and for a plain
    string, it starts at the trigger context's start. The span always ends
    at the trigger context's end, and the text is the candidate's
    replacement (the string itself for a plain candidate). The editor
    afterwards is the editor after that one replacement, with the cursor
    placed or the snippet engine run. *)
Theorem selectSuggestion_replaces_span
    (value : Suggestion) (w : World) (c : EditorSuggestContext) :
  context w = Some c ->
  exists text start w',
    match value with
    | Plain t => text = t /\ start = ctx_start c
    | Rich _ r None => text = r /\ start = ctx_start c
    | Rich _ r (Some p) => text = r /\ start = p
    end /\
    selectSuggestion value w = Ok tt w' /\
    filter (fun e => is_ReplaceRange e = true) (events_of (selectSuggestion value) w)
      = [ReplaceRange text start (ctx_end c)] /\
    exists replaced : Editor,
      replaced = editor_replaceRange (editor w) text start (ctx_end c) /\
      (editor w' = replaced \/
       editor w' = snippetManager_handleSnippet text start replaced \/
       exists pos, editor w' = editor_setCursor replaced pos).
Proof.
  intros Hc.
  destruct (selectSuggestion_run value w c Hc) as (w' & Hrun & _ & _ & Hlog & Hed).
  exists (getSuggestionReplacement value),
         (default (ctx_start c) (overrideStartOf value)), w'.
  split; [destruct value as [t|d r [p|]]; split; reflexivity|].
  split; [exact Hrun|]. split.
  - rewrite (events_of_app (selectSuggestion value) w _
               ltac:(rewrite Hrun; exact Hlog)).
    destruct (contains _ _ || contains _ _); [destruct (disableSnippets w)|];
      reflexivity.
  - eexists. split; [reflexivity|]. rewrite Hed.
    destruct (contains _ _ || contains _ _); [destruct (disableSnippets w)|]; eauto.
Qed.

(** C7: accepting a replacement that holds a snippet marker while the host
    disables snippets replaces the span, then logs the notice, then closes:
    the snippet engine is not called, and the editor is left exactly as the
    replacement made it. *)
Theorem snippet_while_disabled_keeps_insertion
    (value : Suggestion) (w : World) (c : EditorSuggestContext) :
  context w = Some c ->
  is_snippet (getSuggestionReplacement value) ->
  disableSnippets w = true ->
  let replacement := getSuggestionReplacement value in
  let start := default (ctx_start c) (overrideStartOf value) in
  exists w',
    selectSuggestion value w = Ok tt w' /\
    events_of (selectSuggestion value) w =
      [ReplaceRange replacement start (ctx_end c);
       ConsoleLog [snippets_disabled_notice];
       Close] /\
    editor w' = editor_replaceRange (editor w) replacement start (ctx_end c).
Proof.
  intros Hc Hsnip Hoff. cbv zeta.
  destruct (selectSuggestion_run value w c Hc) as (w' & Hrun & _ & _ & Hlog & Hed).
  apply snippet_test in Hsnip. rewrite Hsnip, Hoff in Hlog, Hed.
  exists w'. split; [exact Hrun|]. split; [|exact Hed].
  apply events_of_app. rewrite Hrun. exact Hlog.
Qed.

(** C10: the acceptance takes the snippet path (the snippet engine when
    snippets are enabled, the notice when they are disabled) exactly when
    the replacement holds [#] or [~]; only otherwise is the cursor set, to
    the start plus the replacement's length; on the snippet path with
    snippets disabled the editor is left as the replacement made it. *)
Theorem snippet_path_iff_marker
    (value : Suggestion) (w : World) (c : EditorSuggestContext) :
  context w = Some c ->
  let replacement := getSuggestionReplacement value in
  let start := default (ctx_start c) (overrideStartOf value) in
  let evs := events_of (selectSuggestion value) w in
  (is_snippet replacement ->
     evs = [ReplaceRange replacement start (ctx_end c);
            if disableSnippets w then ConsoleLog [snippets_disabled_notice]
            else HandleSnippet replacement start;
            Close]) /\
  (~ is_snippet replacement ->
     evs = [ReplaceRange replacement start (ctx_end c);
            SetCursor (with_ch start (ch start + Z.of_nat (length replacement)));
            Close]) /\
  (is_snippet replacement -> disableSnippets w = true ->
     editor (world_of (selectSuggestion value w))
       = editor_replaceRange (editor w) replacement start (ctx_end c)).
Proof.
  intros Hc. cbv zeta.
  destruct (selectSuggestion_run value w c Hc) as (w' & Hrun & _ & _ & Hlog & Hed).
  assert (Hevs := events_of_app (selectSuggestion value) w _
                    ltac:(rewrite Hrun; exact Hlog)).
  rewrite Hevs, Hrun. simpl. split; [|split].
  - intros Hsnip. apply snippet_test in Hsnip. rewrite Hsnip. reflexivity.
  - intros Hplain.
    destruct (contains _ _ || contains _ _) eqn:E; [|reflexivity].
    apply snippet_test in E. contradiction.
  - intros Hsnip Hoff. apply snippet_test in Hsnip.
    rewrite Hsnip, Hoff in Hed. exact Hed.
Qed.

End Acceptance.

(** ** What the methods leave alone *)

Section Frames.
Context {HT : HostTypes} {HS : Host}.

Lemma untouched_refl (w : World) : untouched w w.
Proof. repeat split; reflexivity || lia. Qed.

Lemma untouched_fresh (w0 w : World) :
  untouched w0 w -> untouched w0 (set_next_id (S (next_id w)) w).
Proof.
  intros (Hc & Hk & Hr & Hn). repeat split; try assumption. simpl. lia.
Qed.

Lemma untouched_Inv (w w' : World) : untouched w w' -> Inv w -> Inv w'.
Proof.
  intros (Hc & Hk & Hr & Hn) (Ic & Id & If & Ir).
  unfold Inv. rewrite Hc, Hk, Hr. repeat split; try assumption.
  intros k Hin. specialize (If k Hin). lia.
Qed.

Lemma new_RegExp_untouched (w0 : World) source flags :
  keeps (untouched w0) (new_RegExp source flags).
Proof.
  unfold new_RegExp, emit.
  repeat keeps_step assumption.
  intros w Hw. unfold fresh. simpl. apply untouched_fresh, Hw.
Qed.

Lemma getCharacterRegex_untouched (w0 : World) :
  keeps (untouched w0) getCharacterRegex.
Proof.
  unfold getCharacterRegex.
  repeat first [apply new_RegExp_untouched | keeps_step assumption].
Qed.

Lemma isWordChar_untouched (w0 : World) char :
  keeps (untouched w0) (isWordChar char).
Proof.
  unfold isWordChar.
  repeat first [apply getCharacterRegex_untouched | keeps_step assumption].
Qed.

Lemma matchBackward_scan_keeps (I : World -> Prop) (test : JSString -> M bool) :
  (forall char, keeps I (test char)) ->
  forall fuel ed ln i query, keeps I (matchBackward_scan fuel ed ln i test query).
Proof.
  intros Htest. induction fuel as [|fuel IH]; intros ed ln i query; simpl.
  - apply keeps_ret.
  - apply keeps_bind; [apply Htest|]. intros [|]; [apply IH | apply keeps_ret].
Qed.

Lemma onTrigger_untouched (w0 : World) cursor file :
  keeps (untouched w0) (onTrigger cursor file).
Proof.
  unfold onTrigger, matchWordBackwards.
  repeat first [ apply matchBackward_scan_keeps; intros ?; apply isWordChar_untouched
               | keeps_step assumption ].
Qed.

Lemma for_of_providers_untouched (w0 : World) c providers :
  forall index suggestions,
    keeps (untouched w0) (for_of_providers index providers c suggestions).
Proof.
  induction providers as [|p ps IH]; intros index suggestions; simpl.
  - apply keeps_ret.
  - unfold emit.
    repeat first
      [ apply IH
      | apply keeps_forEach; intros ?; unfold fix_popup_position, assign_context_start
      | keeps_step assumption ].
Qed.

Lemma getSuggestions_untouched (w0 : World) c :
  keeps (untouched w0) (getSuggestions c).
Proof.
  unfold getSuggestions.
  apply keeps_bind; [apply for_of_providers_untouched | intros ?; apply keeps_ret].
Qed.

Lemma selectSuggestion_untouched (w0 : World) value :
  keeps (untouched w0) (selectSuggestion value).
Proof.
  unfold selectSuggestion, editor_replaceRange_call, handleSnippet_call,
    editor_setCursor_call, console_log, close, emit.
  repeat keeps_step assumption.
Qed.

Lemma preventNextTrigger_untouched (w0 : World) :
  keeps (untouched w0) preventNextTrigger.
Proof. unfold preventNextTrigger. keeps_step assumption. Qed.

End Frames.

(** ** The accept key *)

Section Keys.
Context {HT : HostTypes} {HS : Host}.

(** Everything [setInsertionKey] does. *)
Lemma setInsertionKey_run (key : JSString) (w : World) :
  exists w',
    setInsertionKey key w = Ok tt w' /\
    scope_keys w' = scope_without (insertionKeybindRegistration w) (scope_keys w)
                    ++ [registration_for key w] /\
    insertionKeybindRegistration w' = Some (registration_for key w) /\
    next_id w' = S (next_id w) /\
    characterRegex w' = characterRegex w /\
    log w' = log w ++
      match insertionKeybindRegistration w with
      | Some h => [ScopeUnregister (Some h)]
      | None => []
      end ++ [ConsoleLog [js "Set"; key]; ScopeRegister (registration_for key w)].
Proof.
  unfold setInsertionKey, disableInsertionKey, scope_unregister, scope_register,
    console_log.
  run. destruct (insertionKeybindRegistration w) as [h|] eqn:Hh;
    (eexists; split; [reflexivity|]; simpl; rewrite ?Hh, <- ?app_assoc; auto).
Qed.

Lemma NoDup_ids_filter (P : KeymapEventHandler -> Prop)
    `{!forall k, Decision (P k)} (keys : list KeymapEventHandler) :
  NoDup (h_id <$> keys) -> NoDup (h_id <$> filter P keys).
Proof.
  intros Hnd. eapply sublist_NoDup; [exact Hnd|].
  apply fmap_sublist, sublist_filter.
Qed.

Lemma scope_without_subset held keys k :
  k ∈ scope_without held keys -> k ∈ keys.
Proof.
  destruct held as [h|]; simpl; [|auto].
  intros Hin. apply list_elem_of_filter in Hin. tauto.
Qed.

Lemma scope_without_NoDup held keys :
  NoDup (h_id <$> keys) -> NoDup (h_id <$> scope_without held keys).
Proof.
  destruct held as [h|]; simpl; [|auto]. apply NoDup_ids_filter.
Qed.

(** Once the held registration is taken out, no custom one is left. *)
Lemma scope_without_custom (w : World) :
  Inv w ->
  filter (fun k => is_custom k = true)
         (scope_without (insertionKeybindRegistration w) (scope_keys w)) = [].
Proof.
  intros (_ & _ & _ & Hheld).
  destruct (filter _ _) as [|k rest] eqn:E; [reflexivity|exfalso].
  assert (Hk : k ∈ filter (fun k => is_custom k = true)
                 (scope_without (insertionKeybindRegistration w) (scope_keys w)))
    by (rewrite E; left).
  apply list_elem_of_filter in Hk as [Hcustom Hin].
  pose proof (Hheld k (scope_without_subset _ _ _ Hin) Hcustom) as Hreg.
  rewrite Hreg in Hin. simpl in Hin.
  apply list_elem_of_filter in Hin as [Hne _]. congruence.
Qed.

Lemma setInsertionKey_Inv (key : JSString) (w : World) :
  Inv w ->
  Inv (world_of (setInsertionKey key w)) /\
  custom_registrations (world_of (setInsertionKey key w)) = [registration_for key w].
Proof.
  intros HI.
  destruct (setInsertionKey_run key w) as (w' & Hrun & Hkeys & Hreg & Hnext & Hc & _).
  rewrite Hrun. simpl.
  assert (Hcustom : custom_registrations w' = [registration_for key w]).
  { unfold custom_registrations. rewrite Hkeys, filter_app.
    rewrite (scope_without_custom w HI). reflexivity. }
  split; [|exact Hcustom].
  destruct HI as (Ic & Id & If & Ir). unfold Inv.
  rewrite Hc, Hkeys, Hreg, Hnext. repeat split.
  - exact Ic.
  - rewrite fmap_app. apply NoDup_app. repeat split.
    + apply scope_without_NoDup, Id.
    + intros i Hi Hnew. simpl in Hnew. apply list_elem_of_singleton in Hnew.
      apply list_elem_of_fmap in Hi as (k & -> & Hk).
      apply scope_without_subset in Hk. specialize (If k Hk). lia.
    + simpl. apply NoDup_singleton.
  - intros k Hk. apply elem_of_app in Hk as [Hk|Hk].
    + apply scope_without_subset in Hk. specialize (If k Hk). lia.
    + apply list_elem_of_singleton in Hk. subst k. simpl. lia.
  - intros k Hk Hcust. f_equal.
    assert (Hin : k ∈ custom_registrations w').
    { unfold custom_registrations. apply list_elem_of_filter. split; [exact Hcust|].
      rewrite Hkeys. exact Hk. }
    rewrite Hcustom in Hin. apply list_elem_of_singleton in Hin. congruence.
Qed.

Lemma scope_unregister_Inv (handler : option KeymapEventHandler) (w : World) :
  Inv w -> Inv (world_of (scope_unregister handler w)).
Proof.
  intros (Ic & Id & If & Ir). unfold scope_unregister. run.
  destruct handler as [h|]; simpl; [|repeat split; assumption].
  repeat split; simpl.
  - exact Ic.
  - apply NoDup_ids_filter, Id.
  - intros k Hk. apply list_elem_of_filter in Hk as [_ Hk]. exact (If k Hk).
  - intros k Hk. apply list_elem_of_filter in Hk as [_ Hk]. exact (Ir k Hk).
Qed.

Lemma after_super_Inv defaultKeys (ed : Editor) legacyEditor s :
  host_scope defaultKeys -> Inv (after_super defaultKeys ed legacyEditor s).
Proof.
  intros [Hdefault Hnd]. repeat split; simpl.
  - exact Hnd.
  - intros k Hk. apply Nat.lt_succ_r, max_list_elem_of_le.
    apply list_elem_of_fmap. eauto.
  - intros k Hk Hcust. rewrite Forall_forall in Hdefault.
    specialize (Hdefault k Hk). unfold is_custom in Hcust.
    rewrite Hdefault in Hcust. discriminate.
Qed.

Lemma constructor_Inv s (w : World) :
  Inv w -> Inv (world_of (constructor s w)).
Proof.
  intros HI. unfold constructor. run.
  pose proof (scope_unregister_Inv
                (List.find (fun k => bool_decide (h_key k = js "Enter")) (scope_keys w))
                w HI) as HI'.
  destruct (scope_unregister _ w) as [[] w1|e w1]; simpl in HI'; [|exact HI'].
  apply setInsertionKey_Inv, HI'.
Qed.

(** The invariant holds at every moment of a popup's life. *)
Lemma reachable_Inv (w : World) : reachable w -> Inv w.
Proof.
  induction 1 as [defaultKeys ed legacyEditor s w Hscope Hnew
                 | A m w Hreach IH Hm
                 | w w' Hreach IH Hstep].
  - unfold new_SuggestionPopup in Hnew.
    pose proof (constructor_Inv s _ (after_super_Inv defaultKeys ed legacyEditor s Hscope))
      as HI.
    rewrite Hnew in HI. exact HI.
  - destruct Hm.
    + eapply untouched_Inv; [|exact IH].
      apply getSuggestions_untouched, untouched_refl.
    + eapply untouched_Inv; [|exact IH].
      apply onTrigger_untouched, untouched_refl.
    + eapply untouched_Inv; [|exact IH].
      apply selectSuggestion_untouched, untouched_refl.
    + eapply untouched_Inv; [|exact IH].
      apply preventNextTrigger_untouched, untouched_refl.
    + apply setInsertionKey_Inv, IH.
  - destruct Hstep; exact IH.
Qed.

(** C9: at every moment of a popup's life at most one custom accept-key
    registration is active; setting the key to [K1] and then to [K2] leaves
    first exactly the registration for [K1], then exactly the one for [K2]:
    the second call unregisters the registration for [K1] before it
    registers the new one, and that registration is no longer in the
    scope. *)
Theorem one_accept_key_registration (w : World) :
  reachable w ->
  (length (custom_registrations w) <= 1)%nat /\
  forall K1 K2, exists h1 w1 h2 w2,
    setInsertionKey K1 w = Ok tt w1 /\
    custom_registrations w1 = [h1] /\ h_key h1 = K1 /\
    setInsertionKey K2 w1 = Ok tt w2 /\
    events_of (setInsertionKey K2) w1
      = [ScopeUnregister (Some h1); ConsoleLog [js "Set"; K2]; ScopeRegister h2] /\
    custom_registrations w2 = [h2] /\ h_key h2 = K2 /\
    h1 ∉ scope_keys w2.
Proof.
  intros Hreach. pose proof (reachable_Inv w Hreach) as HI. split.
  - destruct HI as (_ & Hnd & _ & Hheld).
    destruct (custom_registrations w) as [|a [|b rest]] eqn:E; simpl; try lia.
    exfalso.
    assert (Ha : a ∈ custom_registrations w) by (rewrite E; left).
    assert (Hb : b ∈ custom_registrations w) by (rewrite E; right; left).
    unfold custom_registrations in Ha, Hb.
    apply list_elem_of_filter in Ha as [Hca Ha], Hb as [Hcb Hb].
    pose proof (Hheld a Ha Hca) as Ea. pose proof (Hheld b Hb Hcb) as Eb.
    assert (a = b) as <- by congruence.
    assert (Hndc : NoDup (custom_registrations w)).
    { unfold custom_registrations. apply NoDup_filter.
      eapply NoDup_fmap_1, Hnd. }
    rewrite E in Hndc. apply NoDup_cons in Hndc as [Hnot _].
    apply Hnot. left.
  - intros K1 K2.
    destruct (setInsertionKey_run K1 w) as (w1 & Hrun1 & Hkeys1 & Hreg1 & Hnext1 & _).
    destruct (setInsertionKey_Inv K1 w HI) as [HI1 Hc1]. rewrite Hrun1 in HI1, Hc1.
    simpl in HI1, Hc1.
    destruct (setInsertionKey_run K2 w1) as (w2 & Hrun2 & Hkeys2 & Hreg2 & Hnext2 & _ & Hlog2).
    destruct (setInsertionKey_Inv K2 w1 HI1) as [HI2 Hc2]. rewrite Hrun2 in HI2, Hc2.
    simpl in HI2, Hc2.
    exists (registration_for K1 w), w1, (registration_for K2 w1), w2.
    repeat split; try assumption.
    + apply events_of_app. rewrite Hrun2. simpl. rewrite Hlog2, Hreg1. reflexivity.
    + rewrite Hkeys2, Hreg1. simpl. intros Hin.
      apply elem_of_app in Hin as [Hin|Hin].
      * apply list_elem_of_filter in Hin as [Hne _]. apply Hne. reflexivity.
      * apply list_elem_of_singleton in Hin.
        apply (f_equal h_id) in Hin. simpl in Hin. lia.
Qed.

End Keys.

(** ** The character-class cache and the trigger *)

Section Trigger.
Context {HT : HostTypes} {HS : Host}.

(** With the [characterRegex] field unset, every call compiles. *)
Lemma getCharacterRegex_run (w : World) :
  characterRegex w = None ->
  getCharacterRegex w =
  if regexp_valid (class_source w) (js "u")
  then Ok (Some (compiled_in w)) (after_compile w)
  else Throw (SyntaxError (class_source w))
         (set_log (log w ++ [RegExpCompiled (class_source w) (js "u")]) w).
Proof.
  intros Hc.
  unfold getCharacterRegex, new_RegExp, bind, gets, emit, modify, ret, throw, fresh, id.
  cbv beta iota. rewrite Hc.
  rewrite bool_decide_eq_false_2 by discriminate.
  fold (class_source w). cbv beta iota.
  destruct (regexp_valid (class_source w) (js "u")); reflexivity.
Qed.

Lemma isWordChar_run (char : JSString) (w : World) :
  characterRegex w = None ->
  regexp_valid (class_source w) (js "u") = true ->
  isWordChar char w = Ok (regexp_test (compiled_in w) char) (after_compile w).
Proof.
  intros Hc Hv. unfold isWordChar, bind.
  rewrite (getCharacterRegex_run w Hc), Hv. reflexivity.
Qed.

(** With a well-formed class the backward scan always returns, and it
    leaves the latch, the settings and the separator alone. *)
Lemma matchBackward_scan_returns fuel :
  forall ed ln i query (w : World),
    characterRegex w = None ->
    regexp_valid (class_source w) (js "u") = true ->
    exists m w',
      matchBackward_scan fuel ed ln i isWordChar query w = Ok m w' /\
      justClosed w' = justClosed w /\
      settings w' = settings w.
Proof.
  induction fuel as [|fuel IH]; intros ed ln i query w Hc Hv.
  - exists (query, []), w. repeat split.
  - simpl. unfold bind at 1. rewrite (isWordChar_run _ w Hc Hv).
    destruct (regexp_test (compiled_in w) _).
    + destruct (IH ed ln (i - 1) (editor_getRange ed {| line := ln; ch := i - 1 |}
                                    {| line := ln; ch := i |} ++ query)
                  (after_compile w) Hc Hv) as (m & w' & Hrun & Hj & Hs).
      exists m, w'. repeat split; assumption.
    + eexists _, _. split; [reflexivity|]. split; reflexivity.
Qed.

(** C1 fails on the code: [characterRegex] is never assigned, so in every
    popup two calls in a row for the same well-formed pattern both compile;
    the second call returns a fresh matcher, not the one the first call
    stored. *)
Theorem getCharacterRegex_recompiles_every_call (w : World) :
  reachable w ->
  regexp_valid (class_source w) (js "u") = true ->
  exists r1 w1 r2 w2,
    getCharacterRegex w = Ok (Some r1) w1 /\
    settings w1 = settings w /\
    compiledCharacterRegex w1 = Some r1 /\
    getCharacterRegex w1 = Ok (Some r2) w2 /\
    events_of getCharacterRegex w1 = [RegExpCompiled (class_source w) (js "u")] /\
    re_id r2 <> re_id r1.
Proof.
  intros Hreach Hv.
  destruct (reachable_Inv w Hreach) as (Hc & _).
  exists (compiled_in w), (after_compile w),
         (compiled_in (after_compile w)), (after_compile (after_compile w)).
  assert (Hrun2 : getCharacterRegex (after_compile w)
                  = Ok (Some (compiled_in (after_compile w)))
                       (after_compile (after_compile w))).
  { rewrite (getCharacterRegex_run (after_compile w) Hc).
    change (class_source (after_compile w)) with (class_source w).
    rewrite Hv. reflexivity. }
  repeat split.
  - rewrite (getCharacterRegex_run w Hc), Hv. reflexivity.
  - exact Hrun2.
  - apply events_of_app. rewrite Hrun2. reflexivity.
  - simpl. lia.
Qed.

(** C8: an acceptance sets the latch; the next trigger detection returns
    no trigger and clears the latch; the one after that is not suppressed:
    it never returns "no trigger", and with a well-formed character class
    it returns the trigger the backward match finds, ending at the
    cursor, with the latch still clear. *)
Theorem latch_suppresses_next_trigger_only
    (value : Suggestion) (w : World) (c : EditorSuggestContext)
    (cursor1 cursor2 : EditorPosition) (file1 file2 : TFile) :
  reachable w ->
  context w = Some c ->
  exists w1,
    selectSuggestion value w = Ok tt w1 /\
    justClosed w1 = true /\
    onTrigger cursor1 file1 w1 = Ok None (set_justClosed false w1) /\
    (forall w3, onTrigger cursor2 file2 (set_justClosed false w1) <> Ok None w3) /\
    (regexp_valid (class_source w) (js "u") = true ->
     exists query w3,
       onTrigger cursor2 file2 (set_justClosed false w1)
       = Ok (Some {| ti_start := with_ch cursor2 (ch cursor2 - Z.of_nat (length query));
                     ti_end := cursor2;
                     ti_query := query |}) w3 /\
       justClosed w3 = false).
Proof.
  intros Hreach Hctx.
  destruct (selectSuggestion_run value w c Hctx) as (w1 & Hrun & Hlatch & Hset & _).
  assert (Hc1 : characterRegex w1 = None).
  { pose proof (selectSuggestion_untouched w value w (untouched_refl w)) as (Hc & _).
    rewrite Hrun in Hc. simpl in Hc. rewrite Hc.
    apply (reachable_Inv w Hreach). }
  exists w1. split; [exact Hrun|]. split; [exact Hlatch|]. split; [|split].
  - unfold onTrigger. run. rewrite Hlatch. reflexivity.
  - intros w3. unfold onTrigger. run.
    destruct (matchWordBackwards _ _ _ _ _); discriminate.
  - intros Hv.
    destruct (matchBackward_scan_returns
                (Z.to_nat (Z.min (ch cursor2) (Settings.maxLookBackDistance (settings w1))))
                (editor w1) (line cursor2) (ch cursor2) [] (set_justClosed false w1))
      as (m & w3 & Hscan & Hj & _).
    { exact Hc1. }
    { unfold class_source in *. simpl. rewrite Hset. exact Hv. }
    exists m.1, (set_separatorChar (Some m.2) w3). split.
    + unfold onTrigger, matchWordBackwards. run. rewrite Hscan. reflexivity.
    + simpl. rewrite Hj. reflexivity.
Qed.

End Trigger.

(** * The statements at work on the reference host *)

Lemma reference_scope : host_scope Ref.defaultKeys.
Proof.
  split.
  - repeat constructor.
  - apply (bool_decide_unpack _). vm_compute. exact I.
Defined.

Lemma reference_popup_reachable providers legacyEditor :
  reachable (HS := Ref.host providers) (Ref.popup legacyEditor).
Proof.
  apply (reach_new (HT := Ref.types) (HS := Ref.host providers)
           Ref.defaultKeys Ref.the_qu legacyEditor Ref.config).
  - exact reference_scope.
  - vm_compute. reflexivity.
Defined.

Lemma reference_opened_reachable providers legacyEditor :
  reachable (HS := Ref.host providers) (Ref.opened legacyEditor).
Proof.
  eapply reach_host.
  - apply reference_popup_reachable.
  - apply host_context.
Defined.

(** The scenario of the spec: in [The qu] the query is [qu] after a
    space, and accepting [query] gives [The query] with the cursor after
    it. *)
Example scenario_the_qu :
  (exists w,
     onTrigger (HS := Ref.host [Ref.wordList]) {| line := 0; ch := 6 |} (js "note.md")
       (Ref.popup false)
     = Ok (Some {| ti_start := {| line := 0; ch := 4 |};
                   ti_end := {| line := 0; ch := 6 |};
                   ti_query := js "qu" |}) w /\
     separatorChar w = Some (js " ")) /\
  (exists w,
     getSuggestions (HS := Ref.host [Ref.wordList]) Ref.ctx_qu (Ref.opened false)
     = Ok [Plain (js "query")] w) /\
  editor (world_of (selectSuggestion (HS := Ref.host [Ref.wordList])
                      (Plain (js "query")) (Ref.opened false)))
  = {| Ref.doc := [js "The query"]; Ref.cursor := {| line := 0; ch := 9 |} |}.
Proof.
  split; [|split].
  - eexists. split; [vm_compute; reflexivity|]. vm_compute. reflexivity.
  - eexists. vm_compute. reflexivity.
  - vm_compute. reflexivity.
Qed.

(** The second scenario: a candidate whose [overrideStart] lies two
    characters before the detected start takes those two characters too. *)
Example scenario_override_start :
  Ref.doc (editor (world_of (selectSuggestion (HS := Ref.host [Ref.wordList])
                               Ref.wider (Ref.opened false))))
  = [js "Thquery"].
Proof. vm_compute. reflexivity. Qed.

(** C1 at work: a new popup compiles [[a-zA-Z]] on each of two calls. *)
Lemma recompiles_every_call_at_work :
  exists r1 w1 r2 w2,
    getCharacterRegex (HS := Ref.host [Ref.wordList]) (Ref.popup false) = Ok (Some r1) w1 /\
    settings w1 = settings (Ref.popup false) /\
    compiledCharacterRegex w1 = Some r1 /\
    getCharacterRegex (HS := Ref.host [Ref.wordList]) w1 = Ok (Some r2) w2 /\
    events_of (getCharacterRegex (HS := Ref.host [Ref.wordList])) w1
      = [RegExpCompiled (js "[a-zA-Z]") (js "u")] /\
    re_id r2 <> re_id r1.
Proof.
  exact (getCharacterRegex_recompiles_every_call (HS := Ref.host [Ref.wordList])
           (Ref.popup false) (reference_popup_reachable _ _) eq_refl).
Defined.

(** C2 as stated fails: the first provider throws, the word list behind it
    would have answered [query], and [getSuggestions] throws without
    calling the word list. *)
Lemma failing_provider_is_not_isolated :
  provider_getSuggestions Ref.wordList
    (augment Ref.ctx_qu (Ref.opened false))
    (settings (Ref.opened false))
  = Returned [Plain (js "query")] /\
  getSuggestions (HS := Ref.host Ref.broken_first) Ref.ctx_qu (Ref.opened false)
  = Throw (Thrown (js "boom"))
      (set_log (log (Ref.opened false) ++ [ProviderCalled 0]) (Ref.opened false)) /\
  (forall l w', getSuggestions (HS := Ref.host Ref.broken_first) Ref.ctx_qu (Ref.opened false)
                <> Ok l w').
Proof.
  split; [vm_compute; reflexivity|]. split; [vm_compute; reflexivity|].
  intros l w'. vm_compute. discriminate.
Defined.

(** C2 as amended, at work: the second provider's answer cannot be
    iterated; the collection throws a [TypeError] and the third provider is
    not called. *)
Lemma failing_provider_aborts_at_work :
  exists evs,
    getSuggestions (HS := Ref.host Ref.broken_second) Ref.ctx_qu (Ref.opened false)
    = Throw TypeError (set_log (log (Ref.opened false) ++ evs) (Ref.opened false)) /\
    forall j, j ∈ provider_calls evs -> (j <= 1)%nat.
Proof.
  apply (failing_provider_aborts_collection (HS := Ref.host Ref.broken_second)
           Ref.ctx_qu (Ref.opened false) 1
           (Ref.answers false ReturnedNonIterable) TypeError eq_refl eq_refl).
  vm_compute. repeat constructor.
Defined.

(** C3 at work: the first blocking provider finds nothing, the second one
    finds two candidates, and the word list behind it is not called. *)
Lemma blocking_provider_at_work :
  provider_calls (events_of (getSuggestions (HS := Ref.host Ref.blocking_second) Ref.ctx_qu)
                    (Ref.opened false)) = [0; 1]%nat /\
  forall j,
    j ∈ provider_calls (events_of (getSuggestions (HS := Ref.host Ref.blocking_second)
                                     Ref.ctx_qu) (Ref.opened false)) ->
    (j <= 1)%nat.
Proof.
  split; [vm_compute; reflexivity|].
  apply (blocking_provider_stops_collection (HS := Ref.host Ref.blocking_second)
           Ref.ctx_qu (Ref.opened false) 1 _ _ eq_refl eq_refl eq_refl).
  discriminate.
Defined.

(** C4 at work: three providers; the flagged one finds nothing, so none
    blocks. *)
Lemma concatenates_at_work :
  exists w',
    getSuggestions (HS := Ref.host Ref.none_blocking) Ref.ctx_qu (Ref.opened false)
    = Ok (concat [[]; [Plain (js "quote"); Plain (js "quiz")]; [Plain (js "query")]]) w' /\
    provider_calls (events_of (getSuggestions (HS := Ref.host Ref.none_blocking) Ref.ctx_qu)
                      (Ref.opened false))
    = seq 0 (length Ref.none_blocking).
Proof.
  apply (getSuggestions_concatenates (HS := Ref.host Ref.none_blocking)
           Ref.ctx_qu (Ref.opened false)).
  - repeat constructor.
  - intros [|[|[|i]]] p Hi Hb; simpl in Hi; try discriminate;
      injection Hi as <-; try discriminate; reflexivity.
Defined.

(** C5 at work: in [The qu] with the trigger context from column 4 to
    column 6, the candidate whose [overrideStart] is column 2 replaces from
    column 2, and the plain candidate replaces from column 4. *)
Lemma replaces_span_at_work :
  (exists w',
     selectSuggestion (HS := Ref.host [Ref.wordList]) Ref.wider (Ref.opened false)
       = Ok tt w' /\
     filter (fun e => is_ReplaceRange e = true)
       (events_of (selectSuggestion (HS := Ref.host [Ref.wordList]) Ref.wider)
          (Ref.opened false))
       = [ReplaceRange (js "query") {| line := 0; ch := 2 |} {| line := 0; ch := 6 |}]) /\
  (exists w',
     selectSuggestion (HS := Ref.host [Ref.wordList]) (Plain (js "query")) (Ref.opened false)
       = Ok tt w' /\
     filter (fun e => is_ReplaceRange e = true)
       (events_of (selectSuggestion (HS := Ref.host [Ref.wordList]) (Plain (js "query")))
          (Ref.opened false))
       = [ReplaceRange (js "query") {| line := 0; ch := 4 |} {| line := 0; ch := 6 |}]).
Proof.
  split.
  - destruct (selectSuggestion_replaces_span (HS := Ref.host [Ref.wordList])
                Ref.wider (Ref.opened false) Ref.ctx_qu eq_refl)
      as (text & start & w' & [-> ->] & Hrun & Hcalls & _).
    exists w'. split; [exact Hrun | exact Hcalls].
  - destruct (selectSuggestion_replaces_span (HS := Ref.host [Ref.wordList])
                (Plain (js "query")) (Ref.opened false) Ref.ctx_qu eq_refl)
      as (text & start & w' & [-> ->] & Hrun & Hcalls & _).
    exists w'. split; [exact Hrun | exact Hcalls].
Defined.

(** C6 at work: the short-circuit of the second provider moves the start
    of the trigger context to the [overrideStart] of its structured
    candidate. *)
Lemma short_circuit_at_work :
  match for_of_providers 0 Ref.blocking_second
          Ref.ctx_qu [] (Ref.opened false) with
  | Ok (Break, result) w' =>
      getSuggestions (HS := Ref.host Ref.blocking_second) Ref.ctx_qu (Ref.opened false)
        = Ok result w' /\
      result <> [] /\
      context w' = Some (with_start Ref.ctx_qu {| line := 0; ch := 3 |})
  | _ => False
  end.
Proof.
  pose proof (short_circuit_adjusts_start (HS := Ref.host Ref.blocking_second)
                Ref.ctx_qu (Ref.opened false) Ref.ctx_qu eq_refl) as H.
  vm_compute in H |- *. exact H.
Defined.

(** C7 at work: a snippet accepted while the host disables snippets. *)
Lemma snippet_while_disabled_at_work :
  exists w',
    selectSuggestion (HS := Ref.host [Ref.wordList]) Ref.snippet (Ref.opened true)
      = Ok tt w' /\
    events_of (selectSuggestion (HS := Ref.host [Ref.wordList]) Ref.snippet) (Ref.opened true)
      = [ReplaceRange (js "\frac{#}{#}") {| line := 0; ch := 4 |} {| line := 0; ch := 6 |};
         ConsoleLog [snippets_disabled_notice];
         Close] /\
    editor w' = Ref.replaceRange Ref.the_qu (js "\frac{#}{#}")
                  {| line := 0; ch := 4 |} {| line := 0; ch := 6 |}.
Proof.
  apply (snippet_while_disabled_keeps_insertion (HS := Ref.host [Ref.wordList])
           Ref.snippet (Ref.opened true) Ref.ctx_qu eq_refl).
  - left. vm_compute. repeat constructor.
  - reflexivity.
Defined.

(** C8 at work: after accepting [query], the next trigger detection is
    suppressed and the one after it is not: the character class of the
    reference settings is well formed, and a trigger is found again. *)
Lemma latch_at_work :
  exists w1,
    selectSuggestion (HS := Ref.host [Ref.wordList]) (Plain (js "query")) (Ref.opened false)
      = Ok tt w1 /\
    justClosed w1 = true /\
    onTrigger (HS := Ref.host [Ref.wordList]) {| line := 0; ch := 9 |} (js "note.md") w1
      = Ok None (set_justClosed false w1) /\
    exists query w3,
      onTrigger (HS := Ref.host [Ref.wordList]) {| line := 0; ch := 9 |} (js "note.md")
        (set_justClosed false w1)
      = Ok (Some {| ti_start := with_ch {| line := 0; ch := 9 |}
                                  (9 - Z.of_nat (length query));
                    ti_end := {| line := 0; ch := 9 |};
                    ti_query := query |}) w3 /\
      justClosed w3 = false.
Proof.
  destruct (latch_suppresses_next_trigger_only (HS := Ref.host [Ref.wordList])
              (Plain (js "query")) (Ref.opened false) Ref.ctx_qu
              {| line := 0; ch := 9 |} {| line := 0; ch := 9 |} (js "note.md") (js "note.md")
              (reference_opened_reachable _ _) eq_refl)
    as (w1 & Hrun & Hlatch & Hfirst & _ & Hsecond).
  exists w1. split; [exact Hrun|]. split; [exact Hlatch|]. split; [exact Hfirst|].
  exact (Hsecond eq_refl).
Defined.

(** C9 at work: a new popup holds one registration, and rebinding from
    [Enter] to [Tab] leaves only the one for [Tab]. *)
Lemma one_registration_at_work :
  (length (custom_registrations (Ref.popup false)) <= 1)%nat /\
  forall K1 K2, exists h1 w1 h2 w2,
    setInsertionKey K1 (Ref.popup false) = Ok tt w1 /\
    custom_registrations w1 = [h1] /\ h_key h1 = K1 /\
    setInsertionKey K2 w1 = Ok tt w2 /\
    events_of (setInsertionKey K2) w1
      = [ScopeUnregister (Some h1); ConsoleLog [js "Set"; K2]; ScopeRegister h2] /\
    custom_registrations w2 = [h2] /\ h_key h2 = K2 /\
    h1 ∉ scope_keys w2.
Proof.
  exact (one_accept_key_registration (HS := Ref.host [Ref.wordList])
           (Ref.popup false) (reference_popup_reachable _ _)).
Defined.

(** C10 at work: with snippets enabled a snippet goes to the snippet
    engine and the cursor is not set; a plain word has the cursor set
    behind it; with snippets disabled the snippet leaves the editor as the
    replacement made it. *)
Lemma snippet_path_at_work :
  events_of (selectSuggestion (HS := Ref.host [Ref.wordList]) Ref.snippet) (Ref.opened false)
  = [ReplaceRange (js "\frac{#}{#}") {| line := 0; ch := 4 |} {| line := 0; ch := 6 |};
     HandleSnippet (js "\frac{#}{#}") {| line := 0; ch := 4 |};
     Close] /\
  events_of (selectSuggestion (HS := Ref.host [Ref.wordList]) (Plain (js "query")))
    (Ref.opened false)
  = [ReplaceRange (js "query") {| line := 0; ch := 4 |} {| line := 0; ch := 6 |};
     SetCursor {| line := 0; ch := 9 |};
     Close] /\
  editor (world_of (selectSuggestion (HS := Ref.host [Ref.wordList]) Ref.snippet
                      (Ref.opened true)))
  = Ref.replaceRange Ref.the_qu (js "\frac{#}{#}")
      {| line := 0; ch := 4 |} {| line := 0; ch := 6 |}.
Proof.
  assert (Hsnip : is_snippet (js "\frac{#}{#}")).
  { left. vm_compute. repeat constructor. }
  assert (Hplain : ~ is_snippet (js "query")).
  { intros [H|H]; vm_compute in H;
      repeat (apply elem_of_cons in H as [H|H]; [discriminate|]);
      inversion H. }
  split; [|split].
  - exact (proj1 (snippet_path_iff_marker (HS := Ref.host [Ref.wordList])
                    Ref.snippet (Ref.opened false) Ref.ctx_qu eq_refl) Hsnip).
  - exact (proj1 (proj2 (snippet_path_iff_marker (HS := Ref.host [Ref.wordList])
                           (Plain (js "query")) (Ref.opened false) Ref.ctx_qu eq_refl))
                 Hplain).
  - exact (proj2 (proj2 (snippet_path_iff_marker (HS := Ref.host [Ref.wordList])
                           Ref.snippet (Ref.opened true) Ref.ctx_qu eq_refl))
                 Hsnip eq_refl).
Defined.

(** * Further properties of the popup *)

(** ** Vocabulary *)

(** [l] without its first element that satisfies [P]. *)
Fixpoint remove_first {A} (P : A -> bool) (l : list A) : list A :=
  match l with
  | [] => []
  | x :: l' => if P x then l' else x :: remove_first P l'
  end.

(** The test the constructor looks the default accept handler up with. *)
Definition is_Enter (k : KeymapEventHandler) : bool :=
  bool_decide (h_key k = js "Enter").

(** The handlers of the scope that are the host's own. *)
Definition host_registrations (keys : list KeymapEventHandler)
    : list KeymapEventHandler :=
  filter (fun k => is_custom k = false) keys.

Section MoreVocabulary.
Context {HT : HostTypes}.

(** The registration the popup holds is one of its own, older than the
    next fresh identity, and it is the only handler of the scope with its
    identity. *)
Definition held_ok (w : World) : Prop :=
  forall h, insertionKeybindRegistration w = Some h ->
    is_custom h = true /\
    (h_id h < next_id w)%nat /\
    forall k, k ∈ scope_keys w -> h_id k = h_id h -> k = h.

(** [m] run [n] times in a row, stopping at the first exception. *)
Fixpoint times (n : nat) (m : M unit) : M unit :=
  match n with
  | O => ret tt
  | S n' => m >> times n' m
  end.

(** The state of the popup that no provider is handed: what the code of
    [getSuggestions] itself leaves alone. (The editor, the settings object
    and the positions of the trigger context are handed to the providers,
    and are not part of this.) *)
Definition collection_frame (w w' : World) : Prop :=
  justClosed w' = justClosed w /\
  separatorChar w' = separatorChar w /\
  characterRegex w' = characterRegex w /\
  compiledCharacterRegex w' = compiledCharacterRegex w /\
  insertionKeybindRegistration w' = insertionKeybindRegistration w /\
  disableSnippets w' = disableSnippets w /\
  scope_keys w' = scope_keys w /\
  next_id w' = next_id w /\
  (context w = None -> context w' = None).

End MoreVocabulary.

(** ** Construction and the accept key, continued *)

Section MoreKeys.
Context {HT : HostTypes} {HS : Host}.

Lemma filter_all {A} (P : A -> Prop) `{!forall x, Decision (P x)} (l : list A) :
  (forall x, x ∈ l -> P x) -> filter P l = l.
Proof.
  induction l as [|x l IH]; intros Hall; [reflexivity|].
  rewrite filter_cons_True by (apply Hall; left).
  f_equal. apply IH. intros y Hy. apply Hall. right. exact Hy.
Qed.

Lemma filter_filter_on {A} (P Q : A -> Prop)
    `{!forall x, Decision (P x), !forall x, Decision (Q x)} (l : list A) :
  (forall x, x ∈ l -> P x -> Q x) -> filter P (filter Q l) = filter P l.
Proof.
  induction l as [|x l IH]; intros Himp; [reflexivity|].
  assert (IH' : filter P (filter Q l) = filter P l).
  { apply IH. intros y Hy. apply Himp. right. exact Hy. }
  rewrite (filter_cons Q). destruct (decide (Q x)) as [Hq|Hq].
  - rewrite !(filter_cons P), IH'. reflexivity.
  - rewrite IH', (filter_cons_False P); [reflexivity|].
    intros Hp. apply Hq, Himp; [left|exact Hp].
Qed.

(** Unregistering the handler [find] returned removes the first handler
    that passes the test, and only that one. *)
Lemma unregister_found (P : KeymapEventHandler -> bool)
    (keys : list KeymapEventHandler) (h : KeymapEventHandler) :
  NoDup (h_id <$> keys) ->
  List.find P keys = Some h ->
  filter (fun k => h_id k <> h_id h) keys = remove_first P keys.
Proof.
  induction keys as [|x keys IH]; intros Hnd Hfind; [discriminate|].
  rewrite fmap_cons in Hnd. apply NoDup_cons in Hnd as [Hx Hnd].
  simpl in Hfind |- *. destruct (P x) eqn:HPx.
  - injection Hfind as <-.
    rewrite filter_cons_False by (intros Hne; apply Hne; reflexivity).
    apply filter_all. intros k Hk Heq. apply Hx. rewrite <- Heq.
    apply list_elem_of_fmap_2, Hk.
  - rewrite filter_cons_True.
    + f_equal. apply IH; assumption.
    + intros Heq. apply Hx. rewrite Heq.
      apply list_elem_of_fmap_2, list_elem_of_In.
      apply (List.find_some _ _ Hfind).
Qed.

Lemma remove_first_none {A} (P : A -> bool) (l : list A) :
  List.find P l = None -> remove_first P l = l.
Proof.
  induction l as [|x l IH]; [reflexivity|]. simpl.
  destruct (P x); [discriminate|]. intros Hnone. f_equal. exact (IH Hnone).
Qed.

(** X1: the constructor always succeeds; it leaves in the scope every
    default handler except the first one whose key is [Enter], in their
    order, followed by one new handler for the configured key, which the
    popup holds; a later default handler for [Enter] is not removed. *)
Theorem constructor_replaces_first_enter
    (defaultKeys : list KeymapEventHandler) (ed : Editor)
    (legacyEditor : bool) (s : CompletrSettings) :
  NoDup (h_id <$> defaultKeys) ->
  let h := {| h_id := S (max_list (h_id <$> defaultKeys)); h_modifiers := [];
              h_key := Settings.insertionKey s; h_func := UseSelectedItem |} in
  exists w,
    new_SuggestionPopup defaultKeys ed legacyEditor s = Ok tt w /\
    scope_keys w = remove_first is_Enter defaultKeys ++ [h] /\
    insertionKeybindRegistration w = Some h /\
    log w = [ScopeUnregister (List.find is_Enter defaultKeys);
             ConsoleLog [js "Set"; Settings.insertionKey s];
             ScopeRegister h].
Proof.
  intros Hnd. cbv zeta.
  unfold new_SuggestionPopup, constructor, setInsertionKey, disableInsertionKey,
    scope_unregister, scope_register, console_log.
  run. fold is_Enter.
  destruct (List.find is_Enter defaultKeys) as [h0|] eqn:Hfind; simpl.
  - eexists. split; [reflexivity|]. simpl.
    rewrite (unregister_found is_Enter defaultKeys h0 Hnd Hfind). auto.
  - eexists. split; [reflexivity|]. simpl.
    rewrite (remove_first_none is_Enter defaultKeys Hfind). auto.
Qed.

Lemma untouched_held_ok (w w' : World) : untouched w w' -> held_ok w -> held_ok w'.
Proof.
  intros (_ & Hk & Hr & Hn) Hheld h Hh. rewrite Hr in Hh.
  destruct (Hheld h Hh) as (Hc & Hlt & Huniq).
  split; [exact Hc|]. split; [lia|]. rewrite Hk. exact Huniq.
Qed.

Lemma setInsertionKey_held_ok (key : JSString) (w : World) :
  Inv w -> held_ok (world_of (setInsertionKey key w)).
Proof.
  intros (_ & _ & Hfresh & _).
  destruct (setInsertionKey_run key w) as (w' & Hrun & Hkeys & Hreg & Hnext & _).
  rewrite Hrun. simpl. intros h Hh. rewrite Hreg in Hh. injection Hh as <-.
  split; [reflexivity|]. split; [rewrite Hnext; simpl; lia|].
  intros k Hk Hid. rewrite Hkeys in Hk. apply elem_of_app in Hk as [Hk|Hk].
  - apply scope_without_subset in Hk. specialize (Hfresh k Hk).
    simpl in Hid. lia.
  - apply list_elem_of_singleton in Hk. exact Hk.
Qed.

Lemma reachable_held_ok (w : World) : reachable w -> held_ok w.
Proof.
  induction 1 as [defaultKeys ed legacyEditor s w Hscope Hnew
                 | A m w Hreach IH Hm
                 | w w' Hreach IH Hstep].
  - unfold new_SuggestionPopup, constructor in Hnew.
    unfold bind, gets in Hnew.
    pose proof (scope_unregister_Inv
                  (List.find (fun k => bool_decide (h_key k = js "Enter")) defaultKeys)
                  _ (after_super_Inv defaultKeys ed legacyEditor s Hscope)) as HI.
    simpl in Hnew.
    destruct (scope_unregister _ _) as [[] w1|e w1]; [|discriminate].
    simpl in HI. pose proof (setInsertionKey_held_ok (Settings.insertionKey s) w1 HI) as Hh.
    rewrite Hnew in Hh. exact Hh.
  - destruct Hm.
    + eapply untouched_held_ok; [|exact IH].
      apply getSuggestions_untouched, untouched_refl.
    + eapply untouched_held_ok; [|exact IH].
      apply onTrigger_untouched, untouched_refl.
    + eapply untouched_held_ok; [|exact IH].
      apply selectSuggestion_untouched, untouched_refl.
    + eapply untouched_held_ok; [|exact IH].
      apply preventNextTrigger_untouched, untouched_refl.
    + apply setInsertionKey_held_ok, reachable_Inv, Hreach.
  - destruct Hstep; exact IH.
Qed.

(** Unregistering the held registration takes no host handler away. *)
Lemma scope_without_host (w : World) :
  held_ok w ->
  host_registrations (scope_without (insertionKeybindRegistration w) (scope_keys w))
  = host_registrations (scope_keys w).
Proof.
  intros Hheld. unfold host_registrations.
  destruct (insertionKeybindRegistration w) as [h|] eqn:Hh; [|reflexivity].
  destruct (Hheld h Hh) as (Hc & _ & Huniq). simpl.
  apply filter_filter_on. intros k Hk Hhost Hid.
  rewrite (Huniq k Hk Hid) in Hhost. congruence.
Qed.

(** X2: at every moment of a popup's life, setting the accept key takes
    away none of the host's own handlers and adds none: they stay in the
    scope, in their order. *)
Theorem setInsertionKey_keeps_host_handlers (w : World) (key : JSString) :
  reachable w ->
  exists w',
    setInsertionKey key w = Ok tt w' /\
    host_registrations (scope_keys w') = host_registrations (scope_keys w).
Proof.
  intros Hreach.
  destruct (setInsertionKey_run key w) as (w' & Hrun & Hkeys & _).
  exists w'. split; [exact Hrun|].
  rewrite Hkeys. unfold host_registrations at 1. rewrite filter_app.
  fold (host_registrations (scope_without (insertionKeybindRegistration w) (scope_keys w))).
  rewrite (scope_without_host w (reachable_held_ok w Hreach)).
  rewrite filter_cons_False, filter_nil by (simpl; discriminate).
  apply app_nil_r.
Qed.

(** X3: at every moment of a popup's life, [disableInsertionKey] leaves no
    custom registration active and keeps the host's handlers; the popup
    still holds the handle it unregistered, so a second call unregisters
    it again and changes nothing in the scope; setting a key afterwards
    gives exactly one active registration again. *)
Theorem disableInsertionKey_twice (w : World) (key : JSString) :
  reachable w ->
  exists w1 w2 w3,
    disableInsertionKey w = Ok tt w1 /\
    custom_registrations w1 = [] /\
    host_registrations (scope_keys w1) = host_registrations (scope_keys w) /\
    insertionKeybindRegistration w1 = insertionKeybindRegistration w /\
    disableInsertionKey w1 = Ok tt w2 /\
    scope_keys w2 = scope_keys w1 /\
    setInsertionKey key w2 = Ok tt w3 /\
    custom_registrations w3 = [registration_for key w2].
Proof.
  intros Hreach.
  pose proof (reachable_Inv w Hreach) as HI.
  pose proof (reachable_held_ok w Hreach) as Hheld.
  pose proof (scope_without_custom w HI) as Hnone.
  pose proof (scope_without_host w Hheld) as Hhost.
  unfold disableInsertionKey, scope_unregister. run.
  destruct (insertionKeybindRegistration w) as [h|] eqn:Hh; simpl in Hnone, Hhost.
  - set (w1 := set_scope_keys (filter (fun k => h_id k <> h_id h) (scope_keys w))
                 (set_log (log w ++ [ScopeUnregister (Some h)]) w)).
    assert (HI1 : Inv w1).
    { pose proof (scope_unregister_Inv (Some h) w HI) as H1. exact H1. }
    assert (Hsame : filter (fun k => h_id k <> h_id h) (scope_keys w1) = scope_keys w1).
    { apply filter_all. intros k Hk. simpl in Hk.
      apply list_elem_of_filter in Hk. tauto. }
    set (w2 := set_scope_keys (filter (fun k => h_id k <> h_id h) (scope_keys w1))
                 (set_log (log w1 ++ [ScopeUnregister (Some h)]) w1)).
    assert (HI2 : Inv w2).
    { pose proof (scope_unregister_Inv (Some h) w1 HI1) as H2. exact H2. }
    destruct (setInsertionKey_run key w2) as (w3 & Hrun3 & _).
    destruct (setInsertionKey_Inv key w2 HI2) as [_ Hc3]. rewrite Hrun3 in Hc3.
    exists w1, w2, w3. simpl. rewrite Hh. simpl.
    repeat split; try assumption; try reflexivity.
  - destruct (setInsertionKey_run key w) as (w3 & Hrun3 & _).
    destruct (setInsertionKey_Inv key w HI) as [_ Hc3]. rewrite Hrun3 in Hc3.
    exists w, w, w3. rewrite Hh. repeat split; try assumption; try reflexivity.
Qed.

End MoreKeys.

(** ** Collecting suggestions, continued *)

Section MoreCollection.
Context {HT : HostTypes} {HS : Host}.

Section MoreLoop.
Variable context0 : EditorSuggestContext.

(** The loop up to the first short-circuit: the provider at position [i]
    is flagged and something has been accumulated when its turn ends,
    while no flagged provider before it had anything accumulated. *)
Lemma for_of_short_circuit providers :
  forall index suggestions (w : World) answers i p c0,
    context w = Some c0 ->
    providers !! i = Some p ->
    blocksAllOtherProviders p = true ->
    Forall2 (fun q l => provider_getSuggestions q (augment context0 w) (settings w)
                        = Returned l) (take (S i) providers) answers ->
    (forall j q, (j < i)%nat -> providers !! j = Some q ->
                 blocksAllOtherProviders q = true ->
                 suggestions ++ concat (take (S j) answers) = []) ->
    suggestions ++ concat answers <> [] ->
    exists w',
      for_of_providers index providers context0 suggestions w
        = Ok (Break, suggestions ++ concat answers) w' /\
      log w' = log w ++ (ProviderCalled <$> seq index (S i)) /\
      context w' = Some (with_start c0
                           (default (ctx_start c0)
                              (last_overrideStart (suggestions ++ concat answers)))).
Proof.
  induction providers as [|q qs IH];
    intros index suggestions w answers i p c0 Hc Hi Hb Hans Hquiet Hfound;
    [discriminate|].
  rewrite for_of_step. cbv zeta. destruct i as [|i]; simpl in Hi, Hans.
  - injection Hi as ->.
    inversion Hans as [|? l ? ls Hp Hnil]; subst. inversion Hnil; subst.
    simpl in Hfound |- *. rewrite app_nil_r in Hfound |- *. rewrite Hp, Hb.
    assert ((0 <? Z.of_nat (length (suggestions ++ l))) = true) as ->.
    { apply Z.ltb_lt. destruct (suggestions ++ l); [congruence|simpl; lia]. }
    simpl.
    destruct (forEach_fix_popup_position (suggestions ++ l)
                (set_log (log w ++ [ProviderCalled index]) w) c0 Hc)
      as (w' & Hrun & Hctx & Hlog).
    exists w'. unfold bind. rewrite Hrun. repeat split; assumption.
  - inversion Hans as [|? l ? ls Hq Hrest]; subst.
    rewrite Hq.
    assert (blocksAllOtherProviders q
            && (0 <? Z.of_nat (length (suggestions ++ l))) = false) as ->.
    { destruct (blocksAllOtherProviders q) eqn:Hbq; [|reflexivity].
      pose proof (Hquiet 0%nat q ltac:(lia) eq_refl Hbq) as E. simpl in E.
      rewrite app_nil_r in E. rewrite E. reflexivity. }
    destruct (IH (S index) (suggestions ++ l)
                (set_log (log w ++ [ProviderCalled index]) w) ls i p c0 Hc Hi Hb Hrest)
      as (w' & Hrun & Hlog & Hctx).
    + intros j q' Hj Hq' Hbq'.
      pose proof (Hquiet (S j) q' ltac:(lia) Hq' Hbq') as E.
      simpl in E. rewrite <- app_assoc. exact E.
    + simpl in Hfound. rewrite <- app_assoc. exact Hfound.
    + exists w'. simpl concat. rewrite app_assoc, Hrun. split; [reflexivity|].
      split; [|exact Hctx].
      rewrite Hlog. simpl. rewrite <- app_assoc. reflexivity.
Qed.

(** When every provider answers with an empty list, flagged or not, the
    loop goes through all of them and ends normally with nothing. *)
Lemma for_of_all_empty providers :
  forall index (w : World),
    (forall p, p ∈ providers ->
               provider_getSuggestions p (augment context0 w) (settings w) = Returned []) ->
    for_of_providers index providers context0 [] w =
    Ok (Normal, [])
       (set_log (log w ++ (ProviderCalled <$> seq index (length providers))) w).
Proof.
  induction providers as [|q qs IH]; intros index w Hempty.
  - simpl. run. rewrite app_nil_r. destruct w; reflexivity.
  - rewrite for_of_step, (Hempty q) by left. cbv zeta. simpl app.
    rewrite andb_false_r.
    rewrite (IH (S index) (set_log (log w ++ [ProviderCalled index]) w)).
    + simpl. rewrite <- app_assoc. reflexivity.
    + intros p Hp. apply (Hempty p). right. exact Hp.
Qed.

Lemma assign_context_start_frame (w0 : World) (p : EditorPosition) :
  keeps (collection_frame w0) (assign_context_start p).
Proof.
  intros w Hw. unfold assign_context_start. run.
  destruct (context w) as [c|] eqn:Hc; simpl; [|exact Hw].
  destruct Hw as (H1 & H2 & H3 & H4 & H5 & H6 & H7 & H8 & Hctx).
  repeat split; try assumption. simpl. intros Hnone.
  rewrite (Hctx Hnone) in Hc. discriminate.
Qed.

Lemma for_of_providers_frame (w0 : World) providers :
  forall index suggestions,
    keeps (collection_frame w0) (for_of_providers index providers context0 suggestions).
Proof.
  induction providers as [|q qs IH]; intros index suggestions; simpl.
  - apply keeps_ret.
  - unfold emit.
    repeat first
      [ apply IH
      | apply keeps_forEach; intros [t|d r [p|]]; simpl;
        [apply keeps_ret | apply assign_context_start_frame | apply keeps_ret]
      | keeps_step assumption ].
Qed.

End MoreLoop.

Lemma collection_frame_refl (w : World) : collection_frame w w.
Proof. repeat split. intros Hnone. exact Hnone. Qed.

(** X4: a flagged provider ends the collection as soon as anything has
    been accumulated when its turn ends, also when its own answer is
    empty: the result is the answers of the providers up to and including
    it, in order; exactly those providers are called; and the start of the
    trigger context moves to the last [overrideStart] of that result. *)
Theorem getSuggestions_short_circuit_result
    (c : EditorSuggestContext) (w : World) (c0 : EditorSuggestContext)
    (i : nat) (p : SuggestionProvider) (answers : list (list Suggestion)) :
  context w = Some c0 ->
  PROVIDERS !! i = Some p ->
  blocksAllOtherProviders p = true ->
  Forall2 (fun q l => provider_getSuggestions q (augment c w) (settings w) = Returned l)
          (take (S i) PROVIDERS) answers ->
  (forall j q, (j < i)%nat -> PROVIDERS !! j = Some q ->
               blocksAllOtherProviders q = true ->
               concat (take (S j) answers) = []) ->
  concat answers <> [] ->
  exists w',
    getSuggestions c w = Ok (concat answers) w' /\
    provider_calls (events_of (getSuggestions c) w) = seq 0 (S i) /\
    context w' = Some (with_start c0
                         (default (ctx_start c0) (last_overrideStart (concat answers)))).
Proof.
  intros Hc Hi Hb Hans Hquiet Hfound.
  destruct (for_of_short_circuit c PROVIDERS 0%nat [] w answers i p c0
              Hc Hi Hb Hans Hquiet Hfound) as (w' & Hrun & Hlog & Hctx).
  exists w'. split; [|split].
  - rewrite getSuggestions_unfold, Hrun. reflexivity.
  - rewrite getSuggestions_events.
    rewrite (events_of_app _ w (ProviderCalled <$> seq 0 (S i)));
      [apply provider_calls_fmap|].
    rewrite Hrun. exact Hlog.
  - exact Hctx.
Qed.

(** X5: when every provider answers with an empty list, whether flagged or
    not, [getSuggestions] returns the empty list without an error, having
    called every provider once, in order. *)
Theorem getSuggestions_nothing_found (c : EditorSuggestContext) (w : World) :
  (forall p, p ∈ PROVIDERS ->
             provider_getSuggestions p (augment c w) (settings w) = Returned []) ->
  exists w',
    getSuggestions c w = Ok [] w' /\
    provider_calls (events_of (getSuggestions c) w) = seq 0 (length PROVIDERS) /\
    context w' = context w.
Proof.
  intros Hempty.
  pose proof (for_of_all_empty c PROVIDERS 0%nat w Hempty) as Hrun.
  eexists. split; [|split].
  - rewrite getSuggestions_unfold, Hrun. reflexivity.
  - rewrite getSuggestions_events.
    rewrite (events_of_app _ w (ProviderCalled <$> seq 0 (length PROVIDERS)));
      [apply provider_calls_fmap|].
    rewrite Hrun. reflexivity.
  - reflexivity.
Qed.

(** X6: whatever the providers answer, and however the collection ends,
    the code of [getSuggestions] writes to nothing of the popup that it
    does not hand to a provider: the latch, the stored separator, the
    cache key, the stored matcher, the held registration, the snippet
    flag and the key scope are as before, and a popup without trigger
    context is not given one. *)
Theorem getSuggestions_frame (c : EditorSuggestContext) (w : World) :
  collection_frame w (world_of (getSuggestions c w)).
Proof.
  rewrite getSuggestions_world.
  apply for_of_providers_frame, collection_frame_refl.
Qed.

End MoreCollection.

(** ** The trigger, the matcher and the acceptance, continued *)

Section MoreTrigger.
Context {HT : HostTypes} {HS : Host}.

Lemma times_preventNextTrigger (n : nat) (w : World) :
  (0 < n)%nat -> times n preventNextTrigger w = Ok tt (set_justClosed true w).
Proof.
  intros Hn. destruct n as [|n]; [lia|]. clear Hn. revert w.
  induction n as [|n IH]; intros w.
  - reflexivity.
  - change (times (S (S n)) preventNextTrigger w)
      with (times (S n) preventNextTrigger (set_justClosed true w)).
    rewrite IH. reflexivity.
Qed.

(** X7: after a collection that ended by the short-circuit, accepting a
    candidate that carries no [overrideStart] of its own replaces from the
    last [overrideStart] found in the collected result, not from the start
    the trigger detected. *)
Theorem accept_after_short_circuit
    (c : EditorSuggestContext) (w w' : World) (c0 : EditorSuggestContext)
    (result : list Suggestion) (p : EditorPosition) (value : Suggestion) :
  context w = Some c0 ->
  for_of_providers 0 PROVIDERS c [] w = Ok (Break, result) w' ->
  last_overrideStart result = Some p ->
  overrideStartOf value = None ->
  exists w'',
    selectSuggestion value w' = Ok tt w'' /\
    filter (fun e => is_ReplaceRange e = true) (events_of (selectSuggestion value) w')
      = [ReplaceRange (getSuggestionReplacement value) p (ctx_end c0)].
Proof.
  intros Hc Hloop Hlast Hplain.
  pose proof (for_of_context c PROVIDERS 0%nat [] w c0 Hc) as Hctx.
  rewrite Hloop in Hctx. destruct Hctx as [_ Hctx]. rewrite Hlast in Hctx.
  destruct (selectSuggestion_run value w' _ Hctx) as (w'' & Hrun & _ & _ & Hlog & _).
  exists w''. split; [exact Hrun|].
  rewrite (events_of_app (selectSuggestion value) w' _
             ltac:(rewrite Hrun; exact Hlog)).
  rewrite Hplain. simpl.
  destruct (contains _ _ || contains _ _); [destruct (disableSnippets w')|];
    reflexivity.
Qed.

(** X8: the latch does not count: however many times in a row
    [preventNextTrigger] is called, exactly one trigger detection is
    suppressed; the suppressed detection calls nothing outside the class
    and only clears the latch; the detection after it is not suppressed. *)
Theorem preventNextTrigger_suppresses_one
    (n : nat) (w : World) (cursor1 cursor2 : EditorPosition) (file1 file2 : TFile) :
  (0 < n)%nat ->
  exists w1,
    times n preventNextTrigger w = Ok tt w1 /\
    onTrigger cursor1 file1 w1 = Ok None (set_justClosed false w) /\
    events_of (onTrigger cursor1 file1) w1 = [] /\
    (forall w3, onTrigger cursor2 file2 (set_justClosed false w) <> Ok None w3).
Proof.
  intros Hn. exists (set_justClosed true w).
  split; [exact (times_preventNextTrigger n w Hn)|].
  split; [reflexivity|]. split.
  - apply events_of_app. simpl. rewrite app_nil_r. reflexivity.
  - intros w3. unfold onTrigger. run.
    destruct (matchWordBackwards _ _ _ _ _); discriminate.
Qed.

(** X9: at every moment of a popup's life, [getCharacterRegex] either
    returns and stores a matcher compiled from the pattern the settings
    hold at that moment, with the flag [u], or throws the [SyntaxError] of
    that pattern and leaves the stored matcher as it was: it never hands
    out a matcher of an earlier pattern. *)
Theorem getCharacterRegex_never_stale (w : World) :
  reachable w ->
  match getCharacterRegex w with
  | Ok r w' =>
      regexp_valid (class_source w) (js "u") = true /\
      exists re, r = Some re /\
        re_source re = js "[" ++ Settings.characterRegex (settings w) ++ js "]" /\
        re_flags re = js "u" /\
        compiledCharacterRegex w' = Some re
  | Throw e w' =>
      regexp_valid (class_source w) (js "u") = false /\
      e = SyntaxError (class_source w) /\
      compiledCharacterRegex w' = compiledCharacterRegex w
  end.
Proof.
  intros Hreach. destruct (reachable_Inv w Hreach) as (Hc & _).
  rewrite (getCharacterRegex_run w Hc).
  destruct (regexp_valid (class_source w) (js "u")).
  - split; [reflexivity|]. exists (compiled_in w). repeat split.
  - repeat split.
Qed.

(** X10: no method of the popup and no change the host makes ever assigns
    the [characterRegex] field: it is [undefined] at every moment of a
    popup's life. *)
Theorem characterRegex_never_assigned (w : World) :
  reachable w -> characterRegex w = None.
Proof. intros Hreach. apply (reachable_Inv w Hreach). Qed.

(** X11: when a trigger detection returns a trigger and the host opens the
    popup on it, accepting a candidate without [overrideStart] and without
    snippet marker replaces exactly the query on the cursor's line, from
    the cursor's column minus the query's length to the cursor, and then
    sets the cursor to that start plus the replacement's length. *)
Theorem accept_after_trigger
    (cursor : EditorPosition) (file : TFile) (w w1 w2 : World)
    (info : EditorSuggestTriggerInfo) (c : EditorSuggestContext) (value : Suggestion) :
  onTrigger cursor file w = Ok (Some info) w1 ->
  context w2 = Some c ->
  ctx_start c = ti_start info ->
  ctx_end c = ti_end info ->
  overrideStartOf value = None ->
  ~ is_snippet (getSuggestionReplacement value) ->
  let from := ch cursor - Z.of_nat (length (ti_query info)) in
  events_of (selectSuggestion value) w2 =
    [ReplaceRange (getSuggestionReplacement value)
       {| line := line cursor; ch := from |} cursor;
     SetCursor {| line := line cursor;
                  ch := from + Z.of_nat (length (getSuggestionReplacement value)) |};
     Close].
Proof.
  intros Htrig Hc Hstart Hend Hplain Hnosnip. cbv zeta.
  assert (Hinfo : ti_start info = with_ch cursor (ch cursor - Z.of_nat (length (ti_query info)))
                  /\ ti_end info = cursor).
  { unfold onTrigger in Htrig. unfold bind at 1, gets in Htrig.
    destruct (justClosed (id w)).
    - unfold bind, modify, ret in Htrig. discriminate.
    - unfold bind at 1 in Htrig.
      destruct (matchWordBackwards _ _ _ _ _) as [m wm|e wm]; [|discriminate].
      unfold bind, modify, ret in Htrig. injection Htrig as <- _.
      split; reflexivity. }
  destruct Hinfo as [Hs He].
  destruct (selectSuggestion_run value w2 c Hc) as (w' & Hrun & _ & _ & Hlog & _).
  rewrite (events_of_app (selectSuggestion value) w2 _
             ltac:(rewrite Hrun; exact Hlog)).
  rewrite Hplain, Hstart, Hend, Hs, He. simpl.
  destruct (contains _ _ || contains _ _) eqn:E; [|reflexivity].
  apply snippet_test in E. contradiction.
Qed.

End MoreTrigger.

(** ** The acceptance, its frame *)

Section MoreAcceptance.
Context {HT : HostTypes} {HS : Host}.

(** What an acceptance leaves alone in the popup. *)
Definition acceptance_frame (w w' : World) : Prop :=
  separatorChar w' = separatorChar w /\
  characterRegex w' = characterRegex w /\
  compiledCharacterRegex w' = compiledCharacterRegex w /\
  insertionKeybindRegistration w' = insertionKeybindRegistration w /\
  settings w' = settings w /\
  disableSnippets w' = disableSnippets w /\
  scope_keys w' = scope_keys w /\
  next_id w' = next_id w.

Lemma selectSuggestion_frame (w0 : World) (value : Suggestion) :
  keeps (acceptance_frame w0) (selectSuggestion value).
Proof.
  unfold selectSuggestion, editor_replaceRange_call, handleSnippet_call,
    editor_setCursor_call, console_log, close, emit.
  repeat keeps_step assumption.
Qed.

(** X12: without a trigger context an acceptance throws a [TypeError]
    before it does anything: no call leaves the class and the latch is not
    set. With one, it returns with the latch set, having called
    [replaceRange] first and [close] last, and it leaves the scope, the
    held registration, the settings, the separator and the matcher as they
    were. *)
Theorem selectSuggestion_all_or_nothing (value : Suggestion) (w : World) :
  match context w with
  | None => selectSuggestion value w = Throw TypeError w
  | Some c =>
      exists w' middle,
        selectSuggestion value w = Ok tt w' /\
        justClosed w' = true /\
        events_of (selectSuggestion value) w
          = ReplaceRange (getSuggestionReplacement value)
              (default (ctx_start c) (overrideStartOf value)) (ctx_end c)
            :: middle :: [Close] /\
        acceptance_frame w w'
  end.
Proof.
  destruct (context w) as [c|] eqn:Hc.
  - destruct (selectSuggestion_run value w c Hc) as (w' & Hrun & Hlatch & _ & Hlog & _).
    exists w'. eexists. split; [exact Hrun|]. split; [exact Hlatch|]. split.
    + apply events_of_app. rewrite Hrun. exact Hlog.
    + pose proof (selectSuggestion_frame w value w) as Hframe.
      rewrite Hrun in Hframe. apply Hframe. repeat split.
  - unfold selectSuggestion. run. rewrite Hc. reflexivity.
Qed.

End MoreAcceptance.

(** ** The further properties at work on the reference host *)

Module RefMore.

(** The default handlers and a second handler for [Enter], with Shift. *)
Definition two_enters : list KeymapEventHandler :=
  Ref.defaultKeys ++
  [ {| h_id := 4; h_modifiers := [js "Shift"]; h_key := js "Enter"; h_func := HostDefault |} ].

(** The word list finds [query]; the flagged provider behind it finds
    nothing; a third provider would have found [quiz]. *)
Definition flagged_finds_nothing : list SuggestionProvider :=
  [Ref.wordList; Ref.answers true (Returned []); Ref.answers false (Returned [Plain (js "quiz")])].

Definition nothing_anywhere : list SuggestionProvider :=
  [Ref.answers true (Returned []); Ref.answers false (Returned [])].

Definition digits : CompletrSettings :=
  {| Settings.insertionKey := js "Enter";
     Settings.characterRegex := js "0-9";
     Settings.maxLookBackDistance := 50 |}.

(** The popup after one trigger detection at the end of [The qu]. *)
Definition triggered : World :=
  world_of (onTrigger (HS := Ref.host [Ref.wordList]) {| line := 0; ch := 6 |}
              (js "note.md") (Ref.popup false)).

End RefMore.

Lemma reference_triggered_reachable :
  reachable (HS := Ref.host [Ref.wordList]) RefMore.triggered.
Proof.
  apply (reach_call (HT := Ref.types) (HS := Ref.host [Ref.wordList]) _
           (onTrigger (HT := Ref.types) (HS := Ref.host [Ref.wordList])
              {| line := 0; ch := 6 |} (js "note.md"))
           (Ref.popup false)).
  - apply reference_popup_reachable.
  - apply call_onTrigger.
Defined.

(** X1 at work: of two default handlers for [Enter], the second stays. *)
Lemma constructor_at_work :
  let h := {| h_id := 5; h_modifiers := []; h_key := js "Enter"; h_func := UseSelectedItem |} in
  exists w,
    new_SuggestionPopup RefMore.two_enters Ref.the_qu false Ref.config = Ok tt w /\
    scope_keys w = remove_first is_Enter RefMore.two_enters ++ [h] /\
    insertionKeybindRegistration w = Some h /\
    log w = [ScopeUnregister (List.find is_Enter RefMore.two_enters);
             ConsoleLog [js "Set"; js "Enter"];
             ScopeRegister h].
Proof.
  apply (constructor_replaces_first_enter (HT := Ref.types)
           RefMore.two_enters Ref.the_qu false Ref.config).
  apply (bool_decide_unpack _). vm_compute. exact I.
Defined.

(** X2 at work: rebinding a new popup to [Tab]. *)
Lemma keeps_host_handlers_at_work :
  exists w',
    setInsertionKey (js "Tab") (Ref.popup false) = Ok tt w' /\
    host_registrations (scope_keys w') = host_registrations (scope_keys (Ref.popup false)).
Proof.
  exact (setInsertionKey_keeps_host_handlers (HS := Ref.host [Ref.wordList])
           (Ref.popup false) (js "Tab") (reference_popup_reachable _ _)).
Defined.

(** X3 at work: disabling the key of a new popup twice, then binding [Tab]. *)
Lemma disableInsertionKey_at_work :
  exists w1 w2 w3,
    disableInsertionKey (Ref.popup false) = Ok tt w1 /\
    custom_registrations w1 = [] /\
    host_registrations (scope_keys w1) = host_registrations (scope_keys (Ref.popup false)) /\
    insertionKeybindRegistration w1 = insertionKeybindRegistration (Ref.popup false) /\
    disableInsertionKey w1 = Ok tt w2 /\
    scope_keys w2 = scope_keys w1 /\
    setInsertionKey (js "Tab") w2 = Ok tt w3 /\
    custom_registrations w3 = [registration_for (js "Tab") w2].
Proof.
  exact (disableInsertionKey_twice (HS := Ref.host [Ref.wordList])
           (Ref.popup false) (js "Tab") (reference_popup_reachable _ _)).
Defined.

(** X4 at work: the flagged provider finds nothing itself, and still ends
    the collection, because the word list before it found [query]. *)
Lemma short_circuit_result_at_work :
  exists w',
    getSuggestions (HS := Ref.host RefMore.flagged_finds_nothing) Ref.ctx_qu (Ref.opened false)
    = Ok (concat [[Plain (js "query")]; []]) w' /\
    provider_calls (events_of (getSuggestions (HS := Ref.host RefMore.flagged_finds_nothing)
                                 Ref.ctx_qu) (Ref.opened false))
    = seq 0 2 /\
    context w' = Some (with_start Ref.ctx_qu
                         (default (ctx_start Ref.ctx_qu)
                            (last_overrideStart (concat [[Plain (js "query")]; []])))).
Proof.
  apply (getSuggestions_short_circuit_result (HS := Ref.host RefMore.flagged_finds_nothing)
           Ref.ctx_qu (Ref.opened false) Ref.ctx_qu 1
           (Ref.answers true (Returned [])) [[Plain (js "query")]; []]
           eq_refl eq_refl eq_refl).
  - repeat constructor.
  - intros [|j] q Hj Hq Hb; [|lia]. injection Hq as <-. discriminate.
  - discriminate.
Defined.

(** X5 at work: two providers, one of them flagged, and nothing found. *)
Lemma nothing_found_at_work :
  exists w',
    getSuggestions (HS := Ref.host RefMore.nothing_anywhere) Ref.ctx_qu (Ref.opened false)
    = Ok [] w' /\
    provider_calls (events_of (getSuggestions (HS := Ref.host RefMore.nothing_anywhere)
                                 Ref.ctx_qu) (Ref.opened false))
    = seq 0 (length RefMore.nothing_anywhere) /\
    context w' = context (Ref.opened false).
Proof.
  apply (getSuggestions_nothing_found (HS := Ref.host RefMore.nothing_anywhere)
           Ref.ctx_qu (Ref.opened false)).
  intros p Hp. simpl in Hp.
  repeat (apply elem_of_cons in Hp as [->|Hp]; [reflexivity|]).
  inversion Hp.
Defined.

(** X7 at work: after the short-circuit of the second provider, the plain
    candidate [quote] replaces from column 3, where the structured
    candidate of the same collection starts. *)
Lemma accept_after_short_circuit_at_work :
  exists w'',
    selectSuggestion (HS := Ref.host Ref.blocking_second) (Plain (js "quote"))
      (world_of (getSuggestions (HS := Ref.host Ref.blocking_second) Ref.ctx_qu
                   (Ref.opened false)))
    = Ok tt w'' /\
    filter (fun e => is_ReplaceRange e = true)
      (events_of (selectSuggestion (HS := Ref.host Ref.blocking_second) (Plain (js "quote")))
         (world_of (getSuggestions (HS := Ref.host Ref.blocking_second) Ref.ctx_qu
                      (Ref.opened false))))
    = [ReplaceRange (js "quote") {| line := 0; ch := 3 |} {| line := 0; ch := 6 |}].
Proof.
  apply (accept_after_short_circuit (HS := Ref.host Ref.blocking_second)
           Ref.ctx_qu (Ref.opened false) _ Ref.ctx_qu
           [Plain (js "quote");
            Rich (js "quantity") (js "$quantity") (Some {| line := 0; ch := 3 |})]
           {| line := 0; ch := 3 |} (Plain (js "quote")) eq_refl).
  - vm_compute. reflexivity.
  - reflexivity.
  - reflexivity.
Defined.

(** X8 at work: two calls of [preventNextTrigger] suppress one detection. *)
Lemma suppresses_one_at_work :
  exists w1,
    times 2 preventNextTrigger (Ref.popup false) = Ok tt w1 /\
    onTrigger (HS := Ref.host [Ref.wordList]) {| line := 0; ch := 6 |} (js "note.md") w1
      = Ok None (set_justClosed false (Ref.popup false)) /\
    events_of (onTrigger (HS := Ref.host [Ref.wordList]) {| line := 0; ch := 6 |}
                 (js "note.md")) w1 = [] /\
    (forall w3,
       onTrigger (HS := Ref.host [Ref.wordList]) {| line := 0; ch := 6 |} (js "note.md")
         (set_justClosed false (Ref.popup false)) <> Ok None w3).
Proof.
  apply (preventNextTrigger_suppresses_one (HS := Ref.host [Ref.wordList])
           2 (Ref.popup false)).
  lia.
Defined.

(** X9 at work: after a trigger detection compiled the letters' class, the
    host changes the pattern to digits; the next call returns the matcher
    of the digits' class. *)
Lemma never_stale_at_work :
  match getCharacterRegex (HS := Ref.host [Ref.wordList])
          (set_settings RefMore.digits RefMore.triggered) with
  | Ok r w' =>
      Ref.valid (js "[0-9]") (js "u") = true /\
      exists re, r = Some re /\
        re_source re = js "[" ++ js "0-9" ++ js "]" /\
        re_flags re = js "u" /\
        compiledCharacterRegex w' = Some re
  | Throw e w' =>
      Ref.valid (js "[0-9]") (js "u") = false /\
      e = SyntaxError (js "[0-9]") /\
      compiledCharacterRegex w' = compiledCharacterRegex RefMore.triggered
  end.
Proof.
  apply (getCharacterRegex_never_stale (HS := Ref.host [Ref.wordList])
           (set_settings RefMore.digits RefMore.triggered)).
  eapply reach_host.
  - exact reference_triggered_reachable.
  - apply host_settings.
Defined.

(** X10 at work: the field is still unset after a trigger detection. *)
Lemma never_assigned_at_work : characterRegex RefMore.triggered = None.
Proof.
  exact (characterRegex_never_assigned (HS := Ref.host [Ref.wordList])
           RefMore.triggered reference_triggered_reachable).
Defined.

(** X11 at work: the scenario of [The qu], from the trigger to the cursor
    behind [query]. *)
Lemma accept_after_trigger_at_work :
  events_of (selectSuggestion (HS := Ref.host [Ref.wordList]) (Plain (js "query")))
    (Ref.opened false)
  = [ReplaceRange (js "query") {| line := 0; ch := 4 |} {| line := 0; ch := 6 |};
     SetCursor {| line := 0; ch := 9 |};
     Close].
Proof.
  refine (accept_after_trigger (HS := Ref.host [Ref.wordList])
            {| line := 0; ch := 6 |} (js "note.md") (Ref.popup false) RefMore.triggered
            (Ref.opened false)
            {| ti_start := {| line := 0; ch := 4 |};
               ti_end := {| line := 0; ch := 6 |};
               ti_query := js "qu" |}
            Ref.ctx_qu (Plain (js "query")) _ eq_refl eq_refl eq_refl eq_refl _).
  - vm_compute. reflexivity.
  - intros [H|H]; vm_compute in H;
      repeat (apply elem_of_cons in H as [H|H]; [discriminate|]);
      inversion H.
Defined.
